(** * mygram: the photo viewer (js/lightbox.js) and lazy image loading
      (js/lazyload.js)

    A shallow embedding of the two browser modules and the properties of
    their state machines.

    Conventions of the embedding.
    - A JavaScript string is a Rocq [string]: a sequence of 8-bit code
      units (Latin-1).  Index arguments are integers ([Z]).
    - An optional record field or DOM attribute is an [option string];
      [None] is [undefined] / [null].  JavaScript truthiness of such a
      value is [truthy]: present and not the empty string.
    - Module-level [let] variables, the address fragment and the parts of
      the DOM the code reads or writes are the fields of one [State]
      record; every function of the module is a state transformer.
    - The requests the viewer sends to its collaborators (history, image
      loader, modal widget) are recorded in a trace, most recent first;
      what [share] does is listed in the order it is done. *)

From Stdlib Require Import ZArith Lia Bool Ascii String List.
From stdpp Require Import base option list gmap.
Import ListNotations.

Local Open Scope string_scope.
Local Open Scope Z_scope.

(* ===================================================================== *)
(** ** String primitives of the host language *)
(* ===================================================================== *)

Module JsString.

Definition code (c : ascii) : nat := nat_of_ascii c.

Definition between (lo hi : nat) (c : ascii) : bool :=
  (Nat.leb lo (code c) && Nat.leb (code c) hi)%bool.

Definition is_lower (c : ascii) : bool := between 97 122 c.   (* a-z *)
Definition is_upper (c : ascii) : bool := between 65 90 c.    (* A-Z *)
Definition is_digit (c : ascii) : bool := between 48 57 c.    (* 0-9 *)
Definition is_hyphen (c : ascii) : bool := Ascii.eqb c "-".
Definition is_dot (c : ascii) : bool := Ascii.eqb c ".".

(** Upper-case letters of the Latin-1 supplement: U+00C0..U+00DE
    without the multiplication sign U+00D7. *)
Definition is_upper_latin1 (c : ascii) : bool :=
  (between 192 222 c && negb (Nat.eqb (code c) 215))%bool.

(** [String.prototype.toLowerCase] on one code unit. *)
Definition lower_char (c : ascii) : ascii :=
  if (is_upper c || is_upper_latin1 c)%bool
  then ascii_of_nat (code c + 32)
  else c.

Fixpoint toLowerCase (s : string) : string :=
  match s with
  | EmptyString => EmptyString
  | String c r => String (lower_char c) (toLowerCase r)
  end.

Definition is_empty (s : string) : bool :=
  match s with EmptyString => true | String _ _ => false end.

Fixpoint drop (n : nat) (s : string) : string :=
  match n, s with
  | O, _ => s
  | S _, EmptyString => EmptyString
  | S k, String _ r => drop k r
  end.

(** [s.startsWith(p)] *)
Definition startsWith (s p : string) : bool := String.prefix p s.

(** [s.replace(pat, rep)] for a string pattern: only the first
    occurrence is replaced ([rep] holds no [$] pattern here). *)
Fixpoint replace_first (pat rep s : string) : string :=
  if String.prefix pat s then rep ++ drop (String.length pat) s
  else match s with
       | EmptyString => EmptyString
       | String c r => String c (replace_first pat rep r)
       end.

(** JavaScript truthiness of a possibly missing string. *)
Definition truthy (o : option string) : bool :=
  match o with
  | Some s => negb (is_empty s)
  | None => false
  end.

(** [o || ""] *)
Definition or_empty (o : option string) : string :=
  match o with
  | Some s => s
  | None => ""
  end.

End JsString.

(* ===================================================================== *)
(** ** The regular-expression rewrites of [slugFor] *)
(* ===================================================================== *)

Module SlugRegex.
Import JsString.

Fixpoint has_dot (s : string) : bool :=
  match s with
  | EmptyString => false
  | String c r => (is_dot c || has_dot r)%bool
  end.

(** [s.replace(/\.[^.]+$/, "")]: the pattern matches at the leftmost
    position holding a dot that is followed, up to the end of the input,
    by one or more characters none of which is a dot; the match runs to
    the end, so what remains is the text before that dot. *)
Fixpoint strip_extension (s : string) : string :=
  match s with
  | EmptyString => EmptyString
  | String c r =>
      if (is_dot c && negb (is_empty r) && negb (has_dot r))%bool
      then EmptyString
      else String c (strip_extension r)
  end.

(** The class [[a-z0-9-]]. *)
Definition in_slug_class (c : ascii) : bool :=
  (is_lower c || is_digit c || is_hyphen c)%bool.

(** [s.replace(/[^a-z0-9-]/g, "-")] *)
Fixpoint hyphenate (s : string) : string :=
  match s with
  | EmptyString => EmptyString
  | String c r =>
      String (if in_slug_class c then c else "-"%char) (hyphenate r)
  end.

(** [s.replace(/-+/g, "-")]: a hyphen that another hyphen follows is
    dropped, so each maximal run leaves its last hyphen. *)
Fixpoint collapse_hyphens (s : string) : string :=
  match s with
  | EmptyString => EmptyString
  | String c r =>
      if is_hyphen c then
        match r with
        | EmptyString => String c EmptyString
        | String c' _ =>
            if is_hyphen c' then collapse_hyphens r
            else String c (collapse_hyphens r)
        end
      else String c (collapse_hyphens r)
  end.

(** The alternative [^-]: a hyphen at position 0. *)
Definition strip_first_hyphen (s : string) : string :=
  match s with
  | String c r => if is_hyphen c then r else s
  | EmptyString => EmptyString
  end.

(** The alternative [-$]: a hyphen at the last position. *)
Fixpoint strip_last_hyphen (s : string) : string :=
  match s with
  | EmptyString => EmptyString
  | String c r =>
      if (is_hyphen c && is_empty r)%bool then EmptyString
      else String c (strip_last_hyphen r)
  end.

(** [s.replace(/^-|-$/g, "")]: the scan removes a hyphen at position 0,
    resumes after it, and removes a hyphen at the last position. *)
Definition trim_hyphen (s : string) : string :=
  strip_last_hyphen (strip_first_hyphen s).

(** No hyphen is followed by another one. *)
Fixpoint single_hyphens (s : string) : bool :=
  match s with
  | EmptyString => true
  | String c r =>
      match r with
      | EmptyString => true
      | String c' _ => (negb (is_hyphen c && is_hyphen c') && single_hyphens r)%bool
      end
  end.

Definition head_hyphen (s : string) : bool :=
  match s with
  | EmptyString => false
  | String c _ => is_hyphen c
  end.

End SlugRegex.

(* ===================================================================== *)
(** ** The fragment of the address as the browser keeps it *)
(* ===================================================================== *)

Module UrlFragment.
Import JsString.

(** C0 control or space: U+0000..U+0020. *)
Definition is_c0_or_space (c : ascii) : bool := Nat.leb (code c) 32.

(** ASCII tab or newline: U+0009, U+000A, U+000D. *)
Definition is_tab_or_newline (c : ascii) : bool :=
  (Nat.eqb (code c) 9 || Nat.eqb (code c) 10 || Nat.eqb (code c) 13)%bool.

(** The fragment percent-encode set: C0 controls, everything above
    U+007E, space, the double quote, [<], [>] and the backquote. *)
Definition in_fragment_encode_set (c : ascii) : bool :=
  (Nat.ltb (code c) 32 || Nat.ltb 126 (code c)
   || Nat.eqb (code c) 32 || Nat.eqb (code c) 34 || Nat.eqb (code c) 60
   || Nat.eqb (code c) 62 || Nat.eqb (code c) 96)%bool.

Definition hex_digit (n : nat) : ascii :=
  match String.get n "0123456789ABCDEF" with
  | Some d => d
  | None => "0"%char
  end.

(** One byte as [%XX]. *)
Definition percent_byte (b : nat) : string :=
  String "%" (String (hex_digit (Nat.div b 16))
                (String (hex_digit (Nat.modulo b 16)) EmptyString)).

(** UTF-8 percent-encoding of one code unit of the 8-bit range: one byte
    below U+0080, two bytes from there on. *)
Definition utf8_percent_encode (c : ascii) : string :=
  if Nat.ltb (code c) 128 then percent_byte (code c)
  else (percent_byte (192 + Nat.div (code c) 64)
        ++ percent_byte (128 + Nat.modulo (code c) 64))%string.

Fixpoint all_c0_or_space (s : string) : bool :=
  match s with
  | EmptyString => true
  | String c r => (is_c0_or_space c && all_c0_or_space r)%bool
  end.

(** The URL parser first drops the C0 controls and spaces at the end of
    its input (the input here starts with [#], so none leads it). *)
Fixpoint strip_trailing_c0_space (s : string) : string :=
  match s with
  | EmptyString => EmptyString
  | String c r =>
      if (is_c0_or_space c && all_c0_or_space r)%bool then EmptyString
      else String c (strip_trailing_c0_space r)
  end.

(** Then it drops every ASCII tab and newline. *)
Fixpoint remove_tab_newline (s : string) : string :=
  match s with
  | EmptyString => EmptyString
  | String c r =>
      if is_tab_or_newline c then remove_tab_newline r
      else String c (remove_tab_newline r)
  end.

(** In the fragment state every character of the encode set is
    percent-encoded. *)
Fixpoint percent_encode (s : string) : string :=
  match s with
  | EmptyString => EmptyString
  | String c r =>
      if in_fragment_encode_set c
      then (utf8_percent_encode c ++ percent_encode r)%string
      else String c (percent_encode r)
  end.

(** What [window.location.hash] reads after the address was given the
    fragment part [written] (empty, or [#] and the fragment): the
    parsed and serialised fragment with its [#], or the empty string
    for an empty fragment. *)
Definition url_fragment (written : string) : string :=
  let f := percent_encode (remove_tab_newline (strip_trailing_c0_space written)) in
  if String.eqb f "#" then EmptyString else f.

(** No character of the string is changed by the parser. *)
Fixpoint fragment_safe (s : string) : bool :=
  match s with
  | EmptyString => true
  | String c r =>
      (negb (in_fragment_encode_set c) && negb (is_c0_or_space c)
       && negb (is_tab_or_newline c) && fragment_safe r)%bool
  end.

End UrlFragment.

(* ===================================================================== *)
(** ** lightbox.js *)
(* ===================================================================== *)

Module LightboxModule.
Import JsString SlugRegex UrlFragment.

(** A photo record of the catalog handed to [init]. *)
Record Photo := mkPhoto {
  filename : string;
  slug : option string;
  web : string;
  caption : option string;
  date : option string;
  camera : option string;
  lens : option string;
  settings : option string;
  location : option string
}.

Definition WEB_DIR : string := "photos/web/".
Definition SWIPE_THRESHOLD : Z := 50.

(** What [formatDate] returns: the empty string for a missing date,
    otherwise the host's en-US long rendering of the date, kept
    symbolic. *)
Inductive DateText :=
| NoDate
| LongDate (dateStr : string).

Definition formatDate (dateStr : option string) : DateText :=
  if truthy dateStr then LongDate (or_empty dateStr) else NoDate.

(** One line of the metadata block: the icon and the text after it. *)
Inductive MetaPart :=
| MetaCamera (text : string)
| MetaLens (text : string)
| MetaSettings (text : string)
| MetaLocation (text : string).

(** The elements of the overlay that [show] writes. *)
Record View := mkView {
  lightboxPhoto_src : string;
  lightboxPhoto_alt : string;
  lightboxCaption : string;
  lightboxDate : DateText;
  lightboxMeta : list MetaPart;       (* joined with <br> *)
  lightboxPrev_visible : bool;        (* style.display is not "none" *)
  lightboxNext_visible : bool
}.

(** Requests sent to the collaborators. *)
Inductive Effect :=
| Render (index : Z)                  (* the DOM writes of [show] *)
| ReplaceState (fragment : string)    (* history.replaceState *)
| RequestFrame                        (* requestAnimationFrame *)
| Preload (src : string)              (* new Image().src = src *)
| ModalShow                           (* _modal.show() *)
| ModalHide.                          (* _modal.hide() *)

Record State := mkState {
  _photos : list Photo;
  _currentIndex : Z;
  _suppressHashChange : bool;
  location_hash : string;             (* window.location.hash *)
  modal_shown : bool;                 (* modalEl.classList.contains("show") *)
  frames : nat;                       (* queued animation-frame callbacks *)
  view : View;
  _touchStartX : Z;
  _touchStartY : Z;
  _touchMoved : bool;
  trace : list Effect
}.

Definition emit (e : Effect) (s : State) : State :=
  mkState (_photos s) (_currentIndex s) (_suppressHashChange s)
    (location_hash s) (modal_shown s) (frames s) (view s)
    (_touchStartX s) (_touchStartY s) (_touchMoved s) (e :: trace s).

Definition set_currentIndex (i : Z) (s : State) : State :=
  mkState (_photos s) i (_suppressHashChange s)
    (location_hash s) (modal_shown s) (frames s) (view s)
    (_touchStartX s) (_touchStartY s) (_touchMoved s) (trace s).

Definition set_suppress (b : bool) (s : State) : State :=
  mkState (_photos s) (_currentIndex s) b
    (location_hash s) (modal_shown s) (frames s) (view s)
    (_touchStartX s) (_touchStartY s) (_touchMoved s) (trace s).

Definition set_hash (h : string) (s : State) : State :=
  mkState (_photos s) (_currentIndex s) (_suppressHashChange s)
    h (modal_shown s) (frames s) (view s)
    (_touchStartX s) (_touchStartY s) (_touchMoved s) (trace s).

Definition set_modal_shown (b : bool) (s : State) : State :=
  mkState (_photos s) (_currentIndex s) (_suppressHashChange s)
    (location_hash s) b (frames s) (view s)
    (_touchStartX s) (_touchStartY s) (_touchMoved s) (trace s).

Definition set_frames (n : nat) (s : State) : State :=
  mkState (_photos s) (_currentIndex s) (_suppressHashChange s)
    (location_hash s) (modal_shown s) n (view s)
    (_touchStartX s) (_touchStartY s) (_touchMoved s) (trace s).

Definition set_view (v : View) (s : State) : State :=
  mkState (_photos s) (_currentIndex s) (_suppressHashChange s)
    (location_hash s) (modal_shown s) (frames s) v
    (_touchStartX s) (_touchStartY s) (_touchMoved s) (trace s).

Definition set_touch (x y : Z) (moved : bool) (s : State) : State :=
  mkState (_photos s) (_currentIndex s) (_suppressHashChange s)
    (location_hash s) (modal_shown s) (frames s) (view s)
    x y moved (trace s).

(** *** The host and the collaborators *)

(** [history.replaceState(null, "", url)] where [url] changes only the
    fragment: the request carries the text as written, the address
    holds the fragment as the browser parses and serialises it. *)
Definition replaceState (fragment : string) (s : State) : State :=
  emit (ReplaceState fragment) (set_hash (url_fragment fragment) s).

(** [requestAnimationFrame(() => (_suppressHashChange = false))] queues
    the callback; [animation_frame] is the host running the queue. *)
Definition requestAnimationFrame (s : State) : State :=
  emit RequestFrame (set_frames (S (frames s)) s).

Definition animation_frame (s : State) : State :=
  match frames s with
  | O => s
  | S _ => set_frames 0 (set_suppress false s)
  end.

(** The modal widget: [show()] makes the overlay visible, [hide()]
    removes the visible mark; the widget announces "fully hidden"
    afterwards ([modal_hidden] below).  Its fade transitions take no
    time here. *)
Definition modal_show (s : State) : State :=
  emit ModalShow (set_modal_shown true s).

Definition modal_hide (s : State) : State :=
  emit ModalHide (set_modal_shown false s).

(** *** The functions of the module *)

Definition slugFor (photo : Photo) : string :=
  if truthy (slug photo) then or_empty (slug photo)
  else trim_hyphen
         (collapse_hyphens
            (hyphenate (toLowerCase (strip_extension (filename photo))))).

(** [array.findIndex(pred)], counting from [i]. *)
Fixpoint findIndex_from {A} (pred : A -> bool) (l : list A) (i : Z) : Z :=
  match l with
  | [] => -1
  | x :: r => if pred x then i else findIndex_from pred r (i + 1)
  end.

Definition indexBySlug (sl : string) (s : State) : Z :=
  findIndex_from (fun p => String.eqb (slugFor p) sl) (_photos s) 0.

Definition setHash (sl : string) (s : State) : State :=
  requestAnimationFrame
    (replaceState ("#photo=" ++ sl) (set_suppress true s)).

Definition clearHash (s : State) : State :=
  requestAnimationFrame (replaceState "" (set_suppress true s)).

Definition out_of_range (index : Z) (s : State) : bool :=
  ((index <? 0) || (Z.of_nat (length (_photos s)) <=? index))%bool.

Definition preload (index : Z) (s : State) : State :=
  if out_of_range index s then s
  else match _photos s !! Z.to_nat index with
       | Some p => emit (Preload (WEB_DIR ++ web p)) s
       | None => s
       end.

Definition metaParts (photo : Photo) : list MetaPart :=
  (if truthy (camera photo) then [MetaCamera (or_empty (camera photo))] else [])
  ++ (if truthy (lens photo) then [MetaLens (or_empty (lens photo))] else [])
  ++ (if truthy (settings photo) then [MetaSettings (or_empty (settings photo))] else [])
  ++ (if truthy (location photo) then [MetaLocation (or_empty (location photo))] else []).

Definition render (index : Z) (photo : Photo) (s : State) : State :=
  emit (Render index)
    (set_view
       (mkView (WEB_DIR ++ web photo)
               (or_empty (caption photo))
               (or_empty (caption photo))
               (formatDate (date photo))
               (metaParts photo)
               (0 <? index)
               (index <? Z.of_nat (length (_photos s)) - 1))
       s).

Definition show (index : Z) (s : State) : State :=
  if out_of_range index s then s
  else match _photos s !! Z.to_nat index with
       | None => s          (* not reached: the index is in range *)
       | Some photo =>
           let s1 := set_currentIndex index s in
           let s2 := render index photo s1 in
           let s3 := setHash (slugFor photo) s2 in
           let s4 := preload (index - 1) s3 in
           preload (index + 1) s4
       end.

Definition open (index : Z) (s : State) : State :=
  modal_show (show index s).

Definition checkHash (s : State) : State :=
  let hash := location_hash s in
  if negb (startsWith hash "#photo=") then s
  else
    let sl := replace_first "#photo=" "" hash in
    let idx := indexBySlug sl s in
    if negb (idx =? -1) then open idx s else s.

(** *** The listeners wired by [init] *)

Definition click_prev (s : State) : State := show (_currentIndex s - 1) s.
Definition click_next (s : State) : State := show (_currentIndex s + 1) s.

Definition keydown (key : string) (s : State) : State :=
  if negb (modal_shown s) then s
  else
    let s1 := if String.eqb key "ArrowLeft"
              then show (_currentIndex s - 1) s else s in
    if String.eqb key "ArrowRight"
    then show (_currentIndex s1 + 1) s1 else s1.

(** [hidden.bs.modal] *)
Definition modal_hidden (s : State) : State := clearHash s.

Definition touchstart (x y : Z) (s : State) : State := set_touch x y false s.

Definition touchmove (s : State) : State :=
  set_touch (_touchStartX s) (_touchStartY s) true s.

Definition touchend (x y : Z) (s : State) : State :=
  if negb (_touchMoved s) then s
  else
    let dx := x - _touchStartX s in
    let dy := y - _touchStartY s in
    if ((SWIPE_THRESHOLD <? Z.abs dx) && (Z.abs dy <? Z.abs dx))%bool
    then if dx <? 0 then show (_currentIndex s + 1) s
         else show (_currentIndex s - 1) s
    else s.

(** The [hashchange] listener; it reads the fragment the browser is at. *)
Definition hashchange (s : State) : State :=
  if _suppressHashChange s then s
  else
    let hash := location_hash s in
    if startsWith hash "#photo=" then
      let sl := replace_first "#photo=" "" hash in
      let idx := indexBySlug sl s in
      if negb (idx =? -1) then
        if modal_shown s then show idx s else open idx s
      else s
    else if modal_shown s then modal_hide s
    else s.

Definition emptyView : View := mkView "" "" "" NoDate [] true true.

(** [init(photos)] on a page whose address carries [fragment]
    (empty, or starting with #): the module variables at their initial
    values, the listeners wired and [_modal] built, then the deep-link
    check.  Every [State] is the state of a page on which [init] ran. *)
Definition loaded (photos : list Photo) (fragment : string) : State :=
  mkState photos 0 false fragment false 0 emptyView 0 0 false [].

Definition init (photos : list Photo) (fragment : string) : State :=
  checkHash (loaded photos fragment).

(** *** The page as an event-driven machine *)

Inductive Event :=
| CallOpen (index : Z)        (* the exported [open] *)
| ClickPrev
| ClickNext
| KeyDown (key : string)
| TouchStart (x y : Z)
| TouchMove
| TouchEnd (x y : Z)
| HashChange (fragment : string)  (* the address now reads [fragment] *)
| AnimationFrame
| ModalDismiss                (* the widget's own close control *)
| ModalHidden.

Definition step (e : Event) (s : State) : State :=
  match e with
  | CallOpen i => open i s
  | ClickPrev => click_prev s
  | ClickNext => click_next s
  | KeyDown k => keydown k s
  | TouchStart x y => touchstart x y s
  | TouchMove => touchmove s
  | TouchEnd x y => touchend x y s
  | HashChange h => hashchange (set_hash h s)
  | AnimationFrame => animation_frame s
  | ModalDismiss => if modal_shown s then modal_hide s else s
  | ModalHidden => modal_hidden s
  end.

Definition run (es : list Event) (s : State) : State :=
  fold_left (fun st e => step e st) es s.

(** Reachable states of a page initialised with [photos]. *)
Inductive reachable (photos : list Photo) : State -> Prop :=
| reach_init fragment : reachable photos (init photos fragment)
| reach_step e s : reachable photos s -> reachable photos (step e s).

(** *** Vocabulary of the specification *)

Definition count (s : State) : Z := Z.of_nat (length (_photos s)).
Definition isOpen (s : State) : bool := modal_shown s.
Definition valid_index (i : Z) (s : State) : Prop := 0 <= i < count s.

(** The effects issued between [s] and a later state [s']. *)
Definition issued (s s' : State) : list Effect :=
  firstn (length (trace s') - length (trace s)) (trace s').

Definition is_preload (e : Effect) : bool :=
  match e with Preload _ => true | _ => false end.

(** Keyboard, touch and click input. *)
Definition is_input (e : Event) : bool :=
  match e with
  | ClickPrev | ClickNext | KeyDown _
  | TouchStart _ _ | TouchMove | TouchEnd _ _ => true
  | _ => false
  end.

(** Navigation intents of the gesture handlers. *)
Inductive Intent := Next | Prev.

Definition swipe_intent (moved : bool) (dx dy : Z) : option Intent :=
  if negb moved then None
  else if ((SWIPE_THRESHOLD <? Z.abs dx) && (Z.abs dy <? Z.abs dx))%bool
       then Some (if dx <? 0 then Next else Prev)
       else None.

Definition navigate_intent (o : option Intent) (s : State) : State :=
  match o with
  | Some Next => show (_currentIndex s + 1) s
  | Some Prev => show (_currentIndex s - 1) s
  | None => s
  end.

(** *** [share] and [showToast] *)

(** The host as [share] finds it. *)
Inductive ClipboardApi :=
| ClipboardMissing      (* navigator.clipboard is undefined *)
| ClipboardResolves     (* the promise of writeText is fulfilled *)
| ClipboardRejects.     (* the promise of writeText is rejected *)

Inductive ExecCommand :=
| ExecReturns (copied : bool)   (* document.execCommand("copy") *)
| ExecThrows.

Record Host := mkHost {
  page_url : string;            (* location.href without the fragment *)
  clipboard : ClipboardApi;
  execCommand_copy : ExecCommand;
  shareToast : bool;            (* getElementById("shareToast") is found *)
  shareToastBody : bool         (* getElementById("shareToastBody") is found *)
}.

(** What [share] does, in the order it does it. *)
Inductive ShareEffect :=
| WriteText (url : string)
| AppendTextarea (value : string)
| SelectTextarea
| ExecCopy
| RemoveTextarea
| ToastBodyText (message : string)
| ToastShow (delay : Z).

Inductive Completion :=
| Completed
| TypeErrorThrown       (* share() itself throws *)
| UnhandledRejection.   (* the catch callback throws *)

Definition showToast (h : Host) (message : string) : list ShareEffect :=
  if (negb (shareToast h) || negb (shareToastBody h))%bool then []
  else [ToastBodyText message; ToastShow 2000].

(** [navigator.clipboard.writeText(url).then(...).catch(...)]: the
    member access on a missing [navigator.clipboard] throws before the
    chain is built; a fulfilled promise runs the [then] callback; a
    rejected one runs the [catch] callback, whose statements run in
    order until one throws.  The result of [execCommand] is not read. *)
Definition share (h : Host) (s : State) : Completion * list ShareEffect :=
  let url := (page_url h ++ location_hash s)%string in
  match clipboard h with
  | ClipboardMissing => (TypeErrorThrown, [])
  | ClipboardResolves =>
      (Completed, WriteText url :: showToast h "Link copied to clipboard")
  | ClipboardRejects =>
      let fallback := [WriteText url; AppendTextarea url; SelectTextarea; ExecCopy] in
      match execCommand_copy h with
      | ExecThrows => (UnhandledRejection, fallback)
      | ExecReturns _ =>
          (Completed,
           (fallback ++ RemoveTextarea :: showToast h "Link copied to clipboard")%list)
      end
  end.

Definition is_toast (e : ShareEffect) : bool :=
  match e with ToastShow _ | ToastBodyText _ => true | _ => false end.

Definition toast_shown (r : Completion * list ShareEffect) : bool :=
  existsb is_toast (snd r).

End LightboxModule.

(* ===================================================================== *)
(** ** lazyload.js *)
(* ===================================================================== *)

Module LazyLoad.
Import JsString.

(** An [img] element: the attributes and properties the module touches.
    [src_writes] counts the assignments to [img.src]. *)
Record Img := mkImg {
  lazy : bool;                     (* carries the class "lazy" *)
  data_src : option string;
  data_srcset : option string;
  src : option string;
  srcset : option string;
  load_listeners : nat;            (* pending once-listeners for "load" *)
  src_writes : nat
}.

(** The document's images by identity, and the targets the
    IntersectionObserver currently observes. *)
Record Page := mkPage {
  images : gmap nat Img;
  observed : gset nat
}.

Record Entry := mkEntry {
  target : nat;
  isIntersecting : bool
}.

(** The body of the [forEach] callback. *)
Definition on_entry (entry : Entry) (p : Page) : Page :=
  if negb (isIntersecting entry) then p
  else
    match images p !! target entry with
    | None => p                    (* an entry always names an element *)
    | Some img =>
        if negb (truthy (data_src img)) then p
        else
          let img1 :=
            if truthy (data_srcset img)
            then mkImg (lazy img) (data_src img) None (src img)
                       (data_srcset img) (load_listeners img) (src_writes img)
            else img in
          let img2 :=
            mkImg (lazy img1) None (data_srcset img1) (data_src img1)
                  (srcset img1) (S (load_listeners img1)) (S (src_writes img1)) in
          mkPage (<[target entry := img2]> (images p))
                 (observed p ∖ {[target entry]})
    end.

Definition onIntersect (entries : list Entry) (p : Page) : Page :=
  fold_left (fun q e => on_entry e q) entries p.

(** The selector [img.lazy[data-src]]: the attribute is present. *)
Definition selected (img : Img) : bool :=
  (lazy img && bool_decide (is_Some (data_src img)))%bool.

Definition querySelectorAll (imgs : gmap nat Img) : gset nat :=
  dom (filter (fun kv => selected (snd kv) = true) imgs).

(** [observe()]: a fresh observer that watches every selected image. *)
Definition observe (imgs : gmap nat Img) : Page :=
  mkPage imgs (querySelectorAll imgs).

(** [refresh()] once the observer exists. *)
Definition refresh (p : Page) : Page :=
  mkPage (images p) (observed p ∪ querySelectorAll (images p)).

(** What the page does after [observe()]. *)
Inductive Action :=
| Intersect (entries : list Entry)
| Refresh.

Definition act (a : Action) (p : Page) : Page :=
  match a with
  | Intersect entries => onIntersect entries p
  | Refresh => refresh p
  end.

Definition run (acts : list Action) (p : Page) : Page :=
  fold_left (fun q a => act a q) acts p.

Definition writes_of (k : nat) (p : Page) : nat :=
  match images p !! k with
  | Some img => src_writes img
  | None => 0%nat
  end.

(** An image is either untouched or was given its source once, its
    [data-src] removed. *)
Definition written_once (img : Img) : Prop :=
  src_writes img = 0%nat \/ (src_writes img = 1%nat /\ data_src img = None).

End LazyLoad.

(* ===================================================================== *)
(** ** The slug normalisation as the specification words it *)
(* ===================================================================== *)

Module SlugWords.
Import JsString.

Definition is_alnum (c : ascii) : bool :=
  (is_lower c || is_upper c || is_digit c)%bool.

(** Every run of non-alphanumeric characters becomes one hyphen. *)
Fixpoint collapse_runs (s : string) : string :=
  match s with
  | EmptyString => EmptyString
  | String c r =>
      if is_alnum c then String c (collapse_runs r)
      else match r with
           | EmptyString => String "-"%char EmptyString
           | String c' _ =>
               if is_alnum c' then String "-"%char (collapse_runs r)
               else collapse_runs r
           end
  end.

Fixpoint strip_leading_hyphens (s : string) : string :=
  match s with
  | EmptyString => EmptyString
  | String c r => if is_hyphen c then strip_leading_hyphens r else s
  end.

Fixpoint all_hyphens (s : string) : bool :=
  match s with
  | EmptyString => true
  | String c r => (is_hyphen c && all_hyphens r)%bool
  end.

Fixpoint strip_trailing_hyphens (s : string) : string :=
  match s with
  | EmptyString => EmptyString
  | String c r =>
      if (is_hyphen c && all_hyphens r)%bool then EmptyString
      else String c (strip_trailing_hyphens r)
  end.

(** "lowercase, non-alphanumeric runs collapsed to a single hyphen,
    leading/trailing hyphens stripped" *)
Definition normalize (s : string) : string :=
  strip_trailing_hyphens
    (strip_leading_hyphens (collapse_runs (toLowerCase s))).

End SlugWords.

(* ===================================================================== *)
(** ** Further vocabulary: slug shape, displayed photo, lazy targets *)
(* ===================================================================== *)

Module SlugShape.
Import JsString SlugRegex.

(** Every character is of the class [[a-z0-9-]]. *)
Fixpoint all_in_class (s : string) : bool :=
  match s with
  | EmptyString => true
  | String c r => (in_slug_class c && all_in_class r)%bool
  end.

Fixpoint ends_with_hyphen (s : string) : bool :=
  match s with
  | EmptyString => false
  | String c r => if is_empty r then is_hyphen c else ends_with_hyphen r
  end.

(** Characters of [[a-z0-9-]] only, no doubled hyphen, no hyphen at
    either end.  The empty string has this shape. *)
Definition slug_shape (s : string) : bool :=
  (all_in_class s && single_hyphens s
   && negb (head_hyphen s) && negb (ends_with_hyphen s))%bool.

End SlugShape.

Module ViewerVocabulary.
Import JsString LightboxModule.

(** What the overlay shows for photo [photo] at [index] of a catalog of
    [n] photos. *)
Definition view_of (index : Z) (photo : Photo) (n : nat) : View :=
  mkView (WEB_DIR ++ web photo) (or_empty (caption photo))
    (or_empty (caption photo)) (formatDate (date photo)) (metaParts photo)
    (0 <? index) (index <? Z.of_nat n - 1).

(** The request [preload index] sends, if any. *)
Definition preload_request (index : Z) (s : State) : list Effect :=
  if out_of_range index s then []
  else match _photos s !! Z.to_nat index with
       | Some p => [Preload (WEB_DIR ++ web p)]
       | None => []
       end.

(** The overlay either was never written, or shows the current photo. *)
Definition displays_current (s : State) : Prop :=
  (view s = emptyView /\ _currentIndex s = 0)
  \/ exists p, _photos s !! Z.to_nat (_currentIndex s) = Some p
               /\ 0 <= _currentIndex s
               /\ view s = view_of (_currentIndex s) p (length (_photos s)).

(** A set flag has a queued callback that will clear it. *)
Definition flag_has_callback (s : State) : Prop :=
  _suppressHashChange s = true -> (0 < frames s)%nat.

(** The slugs of the catalog, in order. *)
Definition slugs (s : State) : list string := map slugFor (_photos s).

End ViewerVocabulary.

Module LazyVocabulary.
Import LazyLoad.

(** The elements a batch of entries names as intersecting. *)
Definition intersecting_targets (entries : list Entry) : list nat :=
  map target (filter (fun e => isIntersecting e = true) entries).

(** A load adds one listener and one assignment. *)
Definition loaded_from (before after : Img) : Prop :=
  src after = data_src before
  /\ data_src after = None
  /\ lazy after = lazy before
  /\ src_writes after = S (src_writes before)
  /\ load_listeners after = S (load_listeners before).

End LazyVocabulary.

(* ===================================================================== *)
(** ** Proof tactics *)
(* ===================================================================== *)

(** Case analysis over the 256 code units. *)
Ltac each_char c :=
  destruct c as [[] [] [] [] [] [] [] []]; vm_compute; try reflexivity;
  try discriminate; auto.

(** Projections of a [State] applied to a record. *)
Ltac state_fields :=
  cbn [LightboxModule._photos LightboxModule._currentIndex
       LightboxModule._suppressHashChange LightboxModule.location_hash
       LightboxModule.modal_shown LightboxModule.frames LightboxModule.view
       LightboxModule._touchStartX LightboxModule._touchStartY
       LightboxModule._touchMoved LightboxModule.trace] in *.

(** The writers are evaluated innermost first, together with the
    projections, so that nested updates stay small. *)
Ltac unfold_writes :=
  cbv [LightboxModule.setHash LightboxModule.clearHash LightboxModule.render
       LightboxModule.requestAnimationFrame LightboxModule.replaceState
       LightboxModule.modal_show LightboxModule.modal_hide LightboxModule.emit
       LightboxModule.set_currentIndex LightboxModule.set_suppress
       LightboxModule.set_hash LightboxModule.set_modal_shown
       LightboxModule.set_frames LightboxModule.set_view
       LightboxModule.set_touch
       LightboxModule._photos LightboxModule._currentIndex
       LightboxModule._suppressHashChange LightboxModule.location_hash
       LightboxModule.modal_shown LightboxModule.frames LightboxModule.view
       LightboxModule._touchStartX LightboxModule._touchStartY
       LightboxModule._touchMoved LightboxModule.trace] in *.

(* ===================================================================== *)
(** ** Properties of the slug derivation *)
(* ===================================================================== *)

Section SlugFacts.
Import JsString SlugRegex SlugWords LightboxModule.

Lemma lower_char_alnum (c : ascii) :
  is_alnum (lower_char c) = true ->
  in_slug_class (lower_char c) = true /\ is_hyphen (lower_char c) = false.
Proof. each_char c. Qed.

Lemma lower_char_not_alnum (c : ascii) :
  is_alnum (lower_char c) = false ->
  (if in_slug_class (lower_char c) then lower_char c else "-"%char) = "-"%char.
Proof. each_char c. Qed.

Lemma is_hyphen_eq (c : ascii) : is_hyphen c = true -> c = "-"%char.
Proof. unfold is_hyphen. intros H. apply Ascii.eqb_eq in H. exact H. Qed.

Lemma hyphenate_lower_head (c : ascii) :
  is_hyphen (if in_slug_class (lower_char c) then lower_char c else "-"%char)
  = negb (is_alnum (lower_char c)).
Proof. each_char c. Qed.

(** The two global rewrites of the code collapse exactly the runs of
    non-alphanumeric characters of a lower-cased string. *)
Lemma collapse_hyphenate_lower (s : string) :
  collapse_hyphens (hyphenate (toLowerCase s)) = collapse_runs (toLowerCase s).
Proof.
  induction s as [|c r IH]; [reflexivity|].
  cbn [toLowerCase hyphenate collapse_hyphens collapse_runs].
  rewrite hyphenate_lower_head.
  destruct (is_alnum (lower_char c)) eqn:Ha; cbn [negb].
  - destruct (lower_char_alnum c Ha) as [Hc _]. rewrite Hc.
    f_equal. exact IH.
  - rewrite (lower_char_not_alnum c Ha).
    destruct r as [|c' r'].
    + reflexivity.
    + cbn [toLowerCase hyphenate] in *.
      rewrite hyphenate_lower_head.
      destruct (is_alnum (lower_char c')) eqn:Ha'; cbn [negb].
      * f_equal. exact IH.
      * exact IH.
Qed.

Lemma collapse_hyphens_head (s : string) :
  head_hyphen (collapse_hyphens s) = head_hyphen s.
Proof.
  induction s as [|c r IH]; [reflexivity|].
  cbn [collapse_hyphens].
  destruct (is_hyphen c) eqn:Hc.
  - destruct r as [|c' r']; [cbn; congruence|].
    destruct (is_hyphen c') eqn:Hc'.
    + rewrite IH. cbn. congruence.
    + cbn. congruence.
  - cbn. congruence.
Qed.

Lemma single_hyphens_cons (c : ascii) (t : string) :
  single_hyphens t = true ->
  (is_hyphen c && head_hyphen t)%bool = false ->
  single_hyphens (String c t) = true.
Proof.
  intros Ht Hh. destruct t as [|c' t']; [reflexivity|].
  cbn [single_hyphens head_hyphen] in *. rewrite Hh. cbn. exact Ht.
Qed.

Lemma collapse_hyphens_single (s : string) :
  single_hyphens (collapse_hyphens s) = true.
Proof.
  induction s as [|c r IH]; [reflexivity|].
  cbn [collapse_hyphens].
  destruct (is_hyphen c) eqn:Hc.
  - destruct r as [|c' r']; [reflexivity|].
    destruct (is_hyphen c') eqn:Hc'; [exact IH|].
    apply single_hyphens_cons; [exact IH|].
    rewrite collapse_hyphens_head. cbn. rewrite Hc'. apply andb_false_r.
  - apply single_hyphens_cons; [exact IH|]. rewrite Hc. reflexivity.
Qed.

Lemma single_hyphens_tail (c : ascii) (t : string) :
  single_hyphens (String c t) = true -> single_hyphens t = true.
Proof.
  destruct t as [|c' t']; [reflexivity|].
  cbn [single_hyphens]. intros H. apply andb_true_iff in H. tauto.
Qed.

Lemma single_hyphens_head (c : ascii) (t : string) :
  single_hyphens (String c t) = true ->
  is_hyphen c = true -> head_hyphen t = false.
Proof.
  destruct t as [|c' t']; [reflexivity|].
  cbn [single_hyphens head_hyphen]. intros H Hc. rewrite Hc in H.
  destruct (is_hyphen c'); [discriminate H | reflexivity].
Qed.

Lemma strip_leading_no_head (t : string) :
  head_hyphen t = false -> strip_leading_hyphens t = t.
Proof.
  destruct t as [|c t']; [reflexivity|]. cbn. intros ->. reflexivity.
Qed.

(** On a string without doubled hyphens, removing one hyphen at each end
    removes them all. *)
Lemma strip_first_is_leading (t : string) :
  single_hyphens t = true ->
  strip_first_hyphen t = strip_leading_hyphens t
  /\ single_hyphens (strip_first_hyphen t) = true.
Proof.
  intros Ht. destruct t as [|c t']; [split; reflexivity|].
  cbn [strip_first_hyphen strip_leading_hyphens].
  destruct (is_hyphen c) eqn:Hc.
  - split.
    + symmetry. apply strip_leading_no_head.
      exact (single_hyphens_head c t' Ht Hc).
    + exact (single_hyphens_tail c t' Ht).
  - split; [reflexivity | exact Ht].
Qed.

Lemma all_hyphens_head (t : string) :
  all_hyphens t = true -> is_empty t = false -> head_hyphen t = true.
Proof.
  destruct t as [|c t']; [discriminate 2|].
  cbn. intros H _. apply andb_true_iff in H. tauto.
Qed.

Lemma strip_last_is_trailing (t : string) :
  single_hyphens t = true ->
  strip_last_hyphen t = strip_trailing_hyphens t.
Proof.
  induction t as [|c t' IH]; [reflexivity|].
  intros Ht. cbn [strip_last_hyphen strip_trailing_hyphens].
  rewrite (IH (single_hyphens_tail c t' Ht)).
  destruct (is_hyphen c) eqn:Hc; [|reflexivity].
  cbn [andb].
  destruct (is_empty t') eqn:He.
  - destruct t'; [reflexivity | discriminate He].
  - destruct (all_hyphens t') eqn:Hall; [|reflexivity].
    pose proof (all_hyphens_head t' Hall He) as Hh.
    rewrite (single_hyphens_head c t' Ht Hc) in Hh. discriminate Hh.
Qed.

(** The code's rewrites after the extension is cut off are the
    normalisation the specification describes. *)
Lemma rewrites_are_normalize (s : string) :
  trim_hyphen (collapse_hyphens (hyphenate (toLowerCase s))) = normalize s.
Proof.
  unfold trim_hyphen, normalize.
  rewrite <- collapse_hyphenate_lower.
  pose proof (collapse_hyphens_single (hyphenate (toLowerCase s))) as Hs.
  destruct (strip_first_is_leading _ Hs) as [He Hs'].
  rewrite <- He. apply strip_last_is_trailing. exact Hs'.
Qed.

Lemma has_dot_app (a b : string) :
  has_dot (a ++ b) = (has_dot a || has_dot b)%bool.
Proof.
  induction a as [|c a IH]; [reflexivity|].
  simpl. rewrite IH. apply orb_assoc.
Qed.

(** The first rewrite cuts the text from the last dot on, provided
    something follows that dot. *)
Lemma strip_extension_cut (base ext : string) :
  has_dot ext = false -> ext <> "" ->
  strip_extension (base ++ String "." ext) = base.
Proof.
  intros Hd He. induction base as [|c base IH].
  - simpl. rewrite Hd.
    destruct ext; [contradiction | reflexivity].
  - simpl. rewrite has_dot_app. simpl.
    rewrite orb_true_r, andb_false_r, IH. reflexivity.
Qed.

Lemma strip_extension_no_dot (s : string) :
  has_dot s = false -> strip_extension s = s.
Proof.
  induction s as [|c s IH]; [reflexivity|].
  cbn [has_dot strip_extension]. intros H.
  apply orb_false_iff in H. destruct H as [Hc Hs].
  rewrite Hc, (IH Hs). reflexivity.
Qed.

Lemma strip_extension_trailing_dot (base : string) :
  strip_extension (base ++ ".") = (base ++ ".")%string.
Proof.
  induction base as [|c base IH]; [reflexivity|].
  simpl. rewrite has_dot_app. simpl.
  rewrite orb_true_r, andb_false_r, IH. reflexivity.
Qed.

End SlugFacts.

(** C6 (amended).  [slugFor] is a function of the record (equal records
    give equal slugs); for a record whose slug field is present and not
    empty it returns that field exactly; for any other record it returns
    the file name with its last extension cut off (the last dot and what
    follows it, when something follows), lower-cased, with every run of
    non-alphanumeric characters collapsed to a single hyphen and the
    leading and trailing hyphens stripped. *)
Theorem slugFor_explicit_or_normalized (p q : LightboxModule.Photo) :
  (p = q -> LightboxModule.slugFor p = LightboxModule.slugFor q)
  /\ (JsString.truthy (LightboxModule.slug p) = true ->
      LightboxModule.slug p = Some (LightboxModule.slugFor p))
  /\ (JsString.truthy (LightboxModule.slug p) = false ->
      LightboxModule.slugFor p
      = SlugWords.normalize
          (SlugRegex.strip_extension (LightboxModule.filename p)))
  /\ (forall base ext,
         SlugRegex.has_dot ext = false -> ext <> "" ->
         SlugRegex.strip_extension (base ++ String "." ext) = base)
  /\ (forall name,
         SlugRegex.has_dot name = false ->
         SlugRegex.strip_extension name = name)
  /\ (forall base,
         SlugRegex.strip_extension (base ++ ".") = (base ++ ".")%string).
Proof.
  split; [intros ->; reflexivity|].
  unfold LightboxModule.slugFor.
  split; [|split; [|split; [|split]]].
  - intros H. rewrite H.
    destruct (LightboxModule.slug p); [reflexivity | discriminate H].
  - intros H. rewrite H. apply rewrites_are_normalize.
  - apply strip_extension_cut.
  - apply strip_extension_no_dot.
  - apply strip_extension_trailing_dot.
Qed.

Lemma slugFor_explicit_or_normalized_witness :
  LightboxModule.slugFor
    (LightboxModule.mkPhoto "IMG_001.JPG" (Some "sunset") "w.jpg"
       None None None None None None) = "sunset"
  /\ LightboxModule.slugFor
       (LightboxModule.mkPhoto "My  Photo (1).tar.gz" None "w.jpg"
          None None None None None None) = "my-photo-1-tar".
Proof.
  split.
  - pose proof (slugFor_explicit_or_normalized
      (LightboxModule.mkPhoto "IMG_001.JPG" (Some "sunset") "w.jpg"
         None None None None None None)
      (LightboxModule.mkPhoto "IMG_001.JPG" (Some "sunset") "w.jpg"
         None None None None None None)) as (_ & H & _).
    specialize (H eq_refl). cbn [LightboxModule.slug] in H. congruence.
  - pose proof (slugFor_explicit_or_normalized
      (LightboxModule.mkPhoto "My  Photo (1).tar.gz" None "w.jpg"
         None None None None None None)
      (LightboxModule.mkPhoto "My  Photo (1).tar.gz" None "w.jpg"
         None None None None None None)) as (_ & _ & H & _).
    rewrite (H eq_refl). vm_compute. reflexivity.
Defined.

(** C6 as worded fails: the file name "a.jpg" without a slug field gives
    the slug "a", while lower-casing, collapsing and stripping the whole
    file name gives "a-jpg". *)
Lemma slugFor_cuts_extension_first :
  let p := LightboxModule.mkPhoto "a.jpg" None "a.jpg"
             None None None None None None in
  JsString.truthy (LightboxModule.slug p) = false
  /\ LightboxModule.slugFor p = "a"
  /\ SlugWords.normalize (LightboxModule.filename p) = "a-jpg"
  /\ LightboxModule.slugFor p <> SlugWords.normalize (LightboxModule.filename p).
Proof. cbv zeta. repeat split; try reflexivity. vm_compute. discriminate. Qed.

(* ===================================================================== *)
(** ** The shape of a derived slug *)
(* ===================================================================== *)

Section SlugShapeFacts.
Import JsString SlugRegex SlugShape LightboxModule.

Lemma hyphen_in_class (c : ascii) : is_hyphen c = true -> in_slug_class c = true.
Proof. unfold in_slug_class. intros ->. apply orb_true_r. Qed.

Lemma hyphenate_in_class (s : string) : all_in_class (hyphenate s) = true.
Proof.
  induction s as [|c r IH]; [reflexivity|].
  cbn [hyphenate all_in_class]. rewrite IH, andb_true_r.
  destruct (in_slug_class c) eqn:Hc; [exact Hc | reflexivity].
Qed.

Lemma collapse_hyphens_in_class (s : string) :
  all_in_class s = true -> all_in_class (collapse_hyphens s) = true.
Proof.
  induction s as [|c r IH]; [reflexivity|].
  cbn [all_in_class]. intros H. apply andb_true_iff in H. destruct H as [Hc Hr].
  specialize (IH Hr). cbn [collapse_hyphens].
  destruct (is_hyphen c).
  - destruct r as [|c' r']; [cbn; rewrite Hc; reflexivity|].
    destruct (is_hyphen c'); [exact IH|].
    cbn [all_in_class]. rewrite Hc. exact IH.
  - cbn [all_in_class]. rewrite Hc. exact IH.
Qed.

Lemma strip_first_in_class (s : string) :
  all_in_class s = true -> all_in_class (strip_first_hyphen s) = true.
Proof.
  destruct s as [|c r]; [reflexivity|]. cbn [strip_first_hyphen].
  destruct (is_hyphen c); [|tauto].
  cbn [all_in_class]. intros H. apply andb_true_iff in H. tauto.
Qed.

Lemma strip_last_in_class (s : string) :
  all_in_class s = true -> all_in_class (strip_last_hyphen s) = true.
Proof.
  induction s as [|c r IH]; [reflexivity|].
  cbn [all_in_class strip_last_hyphen]. intros H.
  apply andb_true_iff in H. destruct H as [Hc Hr].
  destruct (is_hyphen c && is_empty r)%bool; [reflexivity|].
  cbn [all_in_class]. rewrite Hc, (IH Hr). reflexivity.
Qed.

Lemma strip_last_head (s : string) :
  head_hyphen s = false -> head_hyphen (strip_last_hyphen s) = false.
Proof.
  destruct s as [|c r]; [reflexivity|]. cbn [head_hyphen strip_last_hyphen].
  intros Hc. rewrite Hc. cbn [andb head_hyphen]. exact Hc.
Qed.

Lemma strip_last_empty (s : string) :
  strip_last_hyphen s = "" ->
  s = "" \/ exists c, s = String c "" /\ is_hyphen c = true.
Proof.
  destruct s as [|c r]; [left; reflexivity|].
  cbn [strip_last_hyphen].
  destruct (is_hyphen c) eqn:Hc; cbn [andb]; [|discriminate].
  destruct r as [|c' r']; cbn [is_empty]; [|discriminate].
  intros _. right. exists c. split; [reflexivity | exact Hc].
Qed.

Lemma strip_last_single (s : string) :
  single_hyphens s = true -> single_hyphens (strip_last_hyphen s) = true.
Proof.
  induction s as [|c r IH]; [reflexivity|].
  intros H. cbn [strip_last_hyphen].
  destruct (is_hyphen c && is_empty r)%bool; [reflexivity|].
  apply single_hyphens_cons.
  - apply IH. exact (single_hyphens_tail c r H).
  - destruct (is_hyphen c) eqn:Hc; [|reflexivity]. cbn [andb].
    apply strip_last_head. exact (single_hyphens_head c r H Hc).
Qed.

Lemma strip_last_no_trailing (s : string) :
  single_hyphens s = true -> ends_with_hyphen (strip_last_hyphen s) = false.
Proof.
  induction s as [|c r IH]; [reflexivity|].
  intros H. cbn [strip_last_hyphen].
  destruct (is_hyphen c) eqn:Hc; cbn [andb].
  - destruct (is_empty r) eqn:He; [reflexivity|].
    cbn [ends_with_hyphen].
    destruct (is_empty (strip_last_hyphen r)) eqn:Hs.
    + exfalso.
      assert (E : strip_last_hyphen r = "")
        by (destruct (strip_last_hyphen r); [reflexivity | discriminate Hs]).
      destruct (strip_last_empty r E) as [-> | (c' & -> & Hc')];
        [discriminate He|].
      pose proof (single_hyphens_head c _ H Hc) as Hh. cbn in Hh. congruence.
    + apply IH. exact (single_hyphens_tail c r H).
  - cbn [ends_with_hyphen].
    destruct (is_empty (strip_last_hyphen r)); [exact Hc|].
    apply IH. exact (single_hyphens_tail c r H).
Qed.

(** What the four rewrites produce has the shape of a slug. *)
Lemma rewrites_have_slug_shape (s : string) :
  slug_shape (trim_hyphen (collapse_hyphens (hyphenate s))) = true.
Proof.
  unfold slug_shape, trim_hyphen.
  pose proof (collapse_hyphens_single (hyphenate s)) as Hs.
  pose proof (collapse_hyphens_in_class _ (hyphenate_in_class s)) as Hc.
  destruct (strip_first_is_leading _ Hs) as [_ Hs1].
  assert (Hh : head_hyphen (strip_first_hyphen (collapse_hyphens (hyphenate s))) = false).
  { destruct (collapse_hyphens (hyphenate s)) as [|c r] eqn:E; [reflexivity|].
    cbn [strip_first_hyphen]. destruct (is_hyphen c) eqn:Hy.
    - exact (single_hyphens_head c r Hs Hy).
    - cbn. exact Hy. }
  rewrite (strip_last_in_class _ (strip_first_in_class _ Hc)),
    (strip_last_single _ Hs1), (strip_last_head _ Hh),
    (strip_last_no_trailing _ Hs1).
  reflexivity.
Qed.

(** *** A string of that shape is a fixed point of the derivation *)

Lemma in_class_not_dot (c : ascii) : in_slug_class c = true -> is_dot c = false.
Proof. each_char c. Qed.

Lemma in_class_lower (c : ascii) : in_slug_class c = true -> lower_char c = c.
Proof. each_char c. Qed.

Lemma in_class_no_dot (s : string) : all_in_class s = true -> has_dot s = false.
Proof.
  induction s as [|c r IH]; [reflexivity|].
  cbn [all_in_class has_dot]. intros H. apply andb_true_iff in H.
  destruct H as [Hc Hr]. rewrite (in_class_not_dot c Hc), (IH Hr). reflexivity.
Qed.

Lemma in_class_toLowerCase (s : string) : all_in_class s = true -> toLowerCase s = s.
Proof.
  induction s as [|c r IH]; [reflexivity|].
  cbn [all_in_class toLowerCase]. intros H. apply andb_true_iff in H.
  destruct H as [Hc Hr]. rewrite (in_class_lower c Hc), (IH Hr). reflexivity.
Qed.

Lemma in_class_hyphenate (s : string) : all_in_class s = true -> hyphenate s = s.
Proof.
  induction s as [|c r IH]; [reflexivity|].
  cbn [all_in_class hyphenate]. intros H. apply andb_true_iff in H.
  destruct H as [Hc Hr]. rewrite Hc, (IH Hr). reflexivity.
Qed.

Lemma single_collapse (s : string) : single_hyphens s = true -> collapse_hyphens s = s.
Proof.
  induction s as [|c r IH]; [reflexivity|].
  intros H. cbn [collapse_hyphens].
  rewrite (IH (single_hyphens_tail c r H)).
  destruct (is_hyphen c) eqn:Hc; [|reflexivity].
  destruct r as [|c' r']; [reflexivity|].
  pose proof (single_hyphens_head c _ H Hc) as Hh. cbn in Hh.
  rewrite Hh. reflexivity.
Qed.

Lemma no_trailing_strip_last (s : string) :
  ends_with_hyphen s = false -> strip_last_hyphen s = s.
Proof.
  induction s as [|c r IH]; [reflexivity|].
  cbn [ends_with_hyphen strip_last_hyphen].
  destruct (is_empty r) eqn:He.
  - intros ->. cbn [andb]. destruct r; [reflexivity | discriminate He].
  - intros H. rewrite andb_false_r, (IH H). reflexivity.
Qed.

Lemma slug_shape_fixed (t : string) :
  slug_shape t = true ->
  trim_hyphen (collapse_hyphens (hyphenate (toLowerCase (strip_extension t)))) = t.
Proof.
  unfold slug_shape. intros H.
  apply andb_true_iff in H. destruct H as [H He].
  apply andb_true_iff in H. destruct H as [H Hh].
  apply andb_true_iff in H. destruct H as [Hc Hs].
  apply negb_true_iff in He, Hh.
  rewrite (strip_extension_no_dot t (in_class_no_dot t Hc)),
    (in_class_toLowerCase t Hc), (in_class_hyphenate t Hc), (single_collapse t Hs).
  unfold trim_hyphen.
  assert (E : strip_first_hyphen t = t).
  { destruct t as [|c r]; [reflexivity|]. cbn in Hh. cbn. rewrite Hh. reflexivity. }
  rewrite E. apply no_trailing_strip_last. exact He.
Qed.

(** X1.  A slug derived from a file name (the record has no usable slug
    field) holds only characters of [[a-z0-9-]], no doubled hyphen and
    no hyphen at either end; it may be empty, as for ".hidden". *)
Theorem slugFor_derived_shape (p : Photo) :
  truthy (slug p) = false ->
  slug_shape (slugFor p) = true
  /\ has_dot (slugFor p) = false.
Proof.
  intros H. unfold slugFor. rewrite H.
  pose proof (rewrites_have_slug_shape (toLowerCase (strip_extension (filename p)))) as Hs.
  split; [exact Hs|].
  apply in_class_no_dot. unfold slug_shape in Hs.
  apply andb_true_iff in Hs. destruct Hs as [Hs _].
  apply andb_true_iff in Hs. destruct Hs as [Hs _].
  apply andb_true_iff in Hs. tauto.
Qed.

Lemma slugFor_derived_shape_witness :
  truthy (slug (mkPhoto "--My  Photo (1).JPG" None "w.jpg" None None None None None None)) = false
  /\ slug_shape (slugFor (mkPhoto "--My  Photo (1).JPG" None "w.jpg" None None None None None None)) = true
  /\ truthy (slug (mkPhoto ".hidden" (Some "") "w.jpg" None None None None None None)) = false
  /\ slug_shape (slugFor (mkPhoto ".hidden" (Some "") "w.jpg" None None None None None None)) = true.
Proof.
  split; [reflexivity|].
  split; [exact (proj1 (slugFor_derived_shape
           (mkPhoto "--My  Photo (1).JPG" None "w.jpg" None None None None None None)
           eq_refl))|].
  split; [reflexivity|].
  exact (proj1 (slugFor_derived_shape
           (mkPhoto ".hidden" (Some "") "w.jpg" None None None None None None)
           eq_refl)).
Defined.

(** X2.  Deriving is idempotent: a record whose file name is already a
    derived slug (and which has no usable slug field) gets that very
    slug; more generally every string of the slug shape is left as it
    is when used as a file name. *)
Theorem slugFor_idempotent (p q : Photo) :
  truthy (slug p) = false ->
  truthy (slug q) = false ->
  (filename q = slugFor p -> slugFor q = slugFor p)
  /\ (slug_shape (filename q) = true -> slugFor q = filename q).
Proof.
  intros Hp Hq.
  assert (Hfix : slug_shape (filename q) = true -> slugFor q = filename q).
  { intros Hs. unfold slugFor at 1. rewrite Hq. apply slug_shape_fixed. exact Hs. }
  split; [|exact Hfix].
  intros E. rewrite <- E. apply Hfix. rewrite E.
  unfold slugFor. rewrite Hp. apply rewrites_have_slug_shape.
Qed.

Lemma slugFor_idempotent_witness :
  let p := mkPhoto "Sunset at the Beach.jpeg" None "w.jpg" None None None None None None in
  let q := mkPhoto "sunset-at-the-beach" None "w.jpg" None None None None None None in
  truthy (slug p) = false /\ truthy (slug q) = false
  /\ filename q = slugFor p
  /\ slugFor q = slugFor p.
Proof.
  cbv zeta. split; [reflexivity|]. split; [reflexivity|].
  assert (E : filename (mkPhoto "sunset-at-the-beach" None "w.jpg" None None None None None None)
              = slugFor (mkPhoto "Sunset at the Beach.jpeg" None "w.jpg" None None None None None None))
    by (vm_compute; reflexivity).
  split; [exact E|].
  exact (proj1 (slugFor_idempotent
                  (mkPhoto "Sunset at the Beach.jpeg" None "w.jpg" None None None None None None)
                  (mkPhoto "sunset-at-the-beach" None "w.jpg" None None None None None None)
                  eq_refl eq_refl) E).
Defined.

End SlugShapeFacts.

(* ===================================================================== *)
(** ** Properties of the fragment serialisation *)
(* ===================================================================== *)

Section UrlFacts.
Import JsString SlugRegex SlugShape UrlFragment.

Lemma fragment_safe_cons (c : ascii) (r : string) :
  fragment_safe (String c r) = true ->
  in_fragment_encode_set c = false /\ is_c0_or_space c = false
  /\ is_tab_or_newline c = false /\ fragment_safe r = true.
Proof.
  cbn [fragment_safe]. intros H.
  apply andb_true_iff in H. destruct H as [H Hr].
  apply andb_true_iff in H. destruct H as [H Ht].
  apply andb_true_iff in H. destruct H as [He Hc].
  apply negb_true_iff in He, Hc, Ht. tauto.
Qed.

Lemma fragment_safe_app (a b : string) :
  fragment_safe (a ++ b) = (fragment_safe a && fragment_safe b)%bool.
Proof.
  induction a as [|c a IH]; [reflexivity|].
  simpl. rewrite IH. rewrite !andb_assoc. reflexivity.
Qed.

Lemma safe_percent_encode (s : string) :
  fragment_safe s = true -> percent_encode s = s.
Proof.
  induction s as [|c r IH]; [reflexivity|]. intros H.
  destruct (fragment_safe_cons c r H) as (He & _ & _ & Hr).
  cbn [percent_encode]. rewrite He, (IH Hr). reflexivity.
Qed.

Lemma safe_remove_tab_newline (s : string) :
  fragment_safe s = true -> remove_tab_newline s = s.
Proof.
  induction s as [|c r IH]; [reflexivity|]. intros H.
  destruct (fragment_safe_cons c r H) as (_ & _ & Ht & Hr).
  cbn [remove_tab_newline]. rewrite Ht, (IH Hr). reflexivity.
Qed.

Lemma safe_strip_trailing (s : string) :
  fragment_safe s = true -> strip_trailing_c0_space s = s.
Proof.
  induction s as [|c r IH]; [reflexivity|]. intros H.
  destruct (fragment_safe_cons c r H) as (_ & Hc & _ & Hr).
  cbn [strip_trailing_c0_space]. rewrite Hc, (IH Hr). reflexivity.
Qed.

(** A fragment of safe characters is kept as written. *)
Lemma url_fragment_photo_safe (sl : string) :
  fragment_safe sl = true ->
  url_fragment ("#photo=" ++ sl) = ("#photo=" ++ sl)%string.
Proof.
  intros H.
  assert (Hs : fragment_safe ("#photo=" ++ sl) = true)
    by (rewrite fragment_safe_app, H; reflexivity).
  unfold url_fragment.
  rewrite (safe_strip_trailing _ Hs), (safe_remove_tab_newline _ Hs),
    (safe_percent_encode _ Hs).
  reflexivity.
Qed.

Lemma in_class_safe_char (c : ascii) :
  in_slug_class c = true ->
  (negb (in_fragment_encode_set c) && negb (is_c0_or_space c)
   && negb (is_tab_or_newline c))%bool = true.
Proof. each_char c. Qed.

(** Strings over [[a-z0-9-]], the derived slugs among them, are safe. *)
Lemma in_class_fragment_safe (s : string) :
  all_in_class s = true -> fragment_safe s = true.
Proof.
  induction s as [|c r IH]; [reflexivity|].
  cbn [all_in_class fragment_safe]. intros H.
  apply andb_true_iff in H. destruct H as [Hc Hr].
  rewrite (in_class_safe_char c Hc), (IH Hr). reflexivity.
Qed.

Lemma derived_slug_safe (name : string) :
  fragment_safe (trim_hyphen (collapse_hyphens (hyphenate name))) = true.
Proof.
  apply in_class_fragment_safe.
  pose proof (rewrites_have_slug_shape name) as Hs. unfold slug_shape in Hs.
  apply andb_true_iff in Hs. destruct Hs as [Hs _].
  apply andb_true_iff in Hs. destruct Hs as [Hs _].
  apply andb_true_iff in Hs. tauto.
Qed.

Lemma utf8_percent_encode_safe (c : ascii) :
  fragment_safe (utf8_percent_encode c) = true.
Proof. each_char c. Qed.

Lemma percent_encode_safe (s : string) :
  fragment_safe (percent_encode (remove_tab_newline s)) = true.
Proof.
  induction s as [|c r IH]; [reflexivity|].
  cbn [remove_tab_newline].
  destruct (is_tab_or_newline c) eqn:Ht; [exact IH|].
  cbn [percent_encode].
  destruct (in_fragment_encode_set c) eqn:He.
  - rewrite fragment_safe_app, utf8_percent_encode_safe, IH. reflexivity.
  - cbn [fragment_safe]. rewrite He, Ht, IH.
    assert (Hc : is_c0_or_space c = false).
    { revert He. clear. each_char c. }
    rewrite Hc. reflexivity.
Qed.

(** What the page reads is a fixed point: reading never changes it. *)
Lemma url_fragment_idempotent (written : string) :
  url_fragment (url_fragment written) = url_fragment written.
Proof.
  pose proof (percent_encode_safe (strip_trailing_c0_space written)) as Hs.
  unfold url_fragment. cbv zeta.
  destruct (String.eqb (percent_encode (remove_tab_newline
                          (strip_trailing_c0_space written))) "#") eqn:E;
    [reflexivity|].
  rewrite (safe_strip_trailing _ Hs), (safe_remove_tab_newline _ Hs),
    (safe_percent_encode _ Hs), E.
  reflexivity.
Qed.

End UrlFacts.

(* ===================================================================== *)
(** ** Properties of the viewer *)
(* ===================================================================== *)

Section ViewerFacts.
Import JsString UrlFragment LightboxModule.

Lemma valid_index_in_range (i : Z) (s : State) :
  valid_index i s <-> out_of_range i s = false.
Proof.
  unfold valid_index, count, out_of_range.
  rewrite orb_false_iff, Z.ltb_ge, Z.leb_gt. tauto.
Qed.

Lemma in_range_lookup (i : Z) (s : State) :
  out_of_range i s = false -> exists p, _photos s !! Z.to_nat i = Some p.
Proof.
  intros H. apply valid_index_in_range in H. destruct H as [H0 H1].
  apply lookup_lt_is_Some. unfold count in H1. lia.
Qed.

Lemma issued_app (s s' : State) (new : list Effect) :
  trace s' = (new ++ trace s)%list -> issued s s' = new.
Proof.
  intros H. unfold issued. rewrite H, length_app.
  replace (length new + length (trace s) - length (trace s))%nat
    with (length new) by lia.
  apply take_app_length.
Qed.

(** [preload] only talks to the image loader. *)
Lemma preload_effects (j : Z) (s : State) :
  exists new,
    preload j s
    = mkState (_photos s) (_currentIndex s) (_suppressHashChange s)
        (location_hash s) (modal_shown s) (frames s) (view s)
        (_touchStartX s) (_touchStartY s) (_touchMoved s) (new ++ trace s)%list
    /\ forallb is_preload new = true.
Proof.
  unfold preload.
  destruct (out_of_range j s); [exists []; destruct s; split; reflexivity|].
  destruct (_photos s !! Z.to_nat j) as [p|].
  - exists [Preload (WEB_DIR ++ web p)]. split; reflexivity.
  - exists []. destruct s; split; reflexivity.
Qed.

Lemma show_out_of_range (i : Z) (s : State) :
  out_of_range i s = true -> show i s = s.
Proof. intros H. unfold show. rewrite H. reflexivity. Qed.

(** What a call of [show] with an index in range leaves behind. *)
Lemma show_in_range (i : Z) (s : State) :
  out_of_range i s = false ->
  exists p pre,
    _photos s !! Z.to_nat i = Some p
    /\ forallb is_preload pre = true
    /\ show i s
       = mkState (_photos s) i true (url_fragment ("#photo=" ++ slugFor p))
           (modal_shown s) (S (frames s))
           (mkView (WEB_DIR ++ web p)%string (or_empty (caption p))
              (or_empty (caption p)) (formatDate (date p)) (metaParts p)
              (0 <? i) (i <? Z.of_nat (length (_photos s)) - 1))
           (_touchStartX s) (_touchStartY s) (_touchMoved s)
           (pre ++ RequestFrame :: ReplaceState ("#photo=" ++ slugFor p)%string
                :: Render i :: trace s)%list.
Proof.
  intros H. destruct (in_range_lookup i s H) as [p Hp].
  unfold show. rewrite H, Hp. cbv zeta.
  destruct (preload_effects (i - 1)
              (setHash (slugFor p) (render i p (set_currentIndex i s))))
    as (n1 & E1 & P1).
  rewrite E1.
  match goal with |- context [preload (i + 1) ?st] =>
    destruct (preload_effects (i + 1) st) as (n2 & E2 & P2) end.
  rewrite E2. destruct s. unfold_writes.
  exists p, (n2 ++ n1)%list. split; [reflexivity|]. split.
  - rewrite forallb_app, P1, P2. reflexivity.
  - rewrite <- app_assoc. reflexivity.
Qed.

Lemma forallb_preload_not (pre : list Effect) (e : Effect) :
  forallb is_preload pre = true -> is_preload e = false -> ~ In e pre.
Proof.
  intros Hp He Hin. rewrite forallb_forall in Hp.
  specialize (Hp e Hin). congruence.
Qed.

(** [show] never touches the catalog, the modal or the touch record;
    it only adds effects, and none of them addresses the modal. *)
Lemma show_frame (i : Z) (s : State) :
  _photos (show i s) = _photos s
  /\ modal_shown (show i s) = modal_shown s
  /\ _touchStartX (show i s) = _touchStartX s
  /\ _touchStartY (show i s) = _touchStartY s
  /\ _touchMoved (show i s) = _touchMoved s
  /\ exists new, trace (show i s) = (new ++ trace s)%list
                 /\ ~ In ModalShow new /\ ~ In ModalHide new.
Proof.
  destruct (out_of_range i s) eqn:H.
  - rewrite (show_out_of_range i s H). repeat split.
    exists []. repeat split; auto.
  - destruct (show_in_range i s H) as (p & pre & _ & Hpre & ->). state_fields.
    repeat split.
    eexists (pre ++ [RequestFrame; ReplaceState _; Render i])%list.
    rewrite <- app_assoc. split; [reflexivity|].
    split; intros Hin; apply in_app_or in Hin; destruct Hin as [Hin|Hin];
      try (revert Hin; apply forallb_preload_not; [exact Hpre|reflexivity]);
      cbn in Hin; intuition discriminate.
Qed.

Lemma show_index (i : Z) (s : State) :
  _currentIndex (show i s) = if out_of_range i s then _currentIndex s else i.
Proof.
  destruct (out_of_range i s) eqn:H.
  - rewrite (show_out_of_range i s H). reflexivity.
  - destruct (show_in_range i s H) as (p & pre & _ & _ & ->). reflexivity.
Qed.

Lemma open_unfold (i : Z) (s : State) :
  open i s
  = mkState (_photos (show i s)) (_currentIndex (show i s))
      (_suppressHashChange (show i s)) (location_hash (show i s)) true
      (frames (show i s)) (view (show i s))
      (_touchStartX (show i s)) (_touchStartY (show i s))
      (_touchMoved (show i s)) (ModalShow :: trace (show i s)).
Proof. reflexivity. Qed.

(** C1 (amended).  For an index in range, [open] leaves the viewer open
    on that index, the modal was asked to become visible, and the
    fragment of the address is the browser's serialisation of
    [#photo=] followed by the slug of that photo: [#photo=<slug>]
    itself whenever the slug holds no character the fragment encoding
    changes, as is the case for every slug derived from a file name. *)
Theorem open_valid_index (s : State) (i : Z) :
  valid_index i s ->
  exists p,
    _photos s !! Z.to_nat i = Some p
    /\ isOpen (open i s) = true
    /\ _currentIndex (open i s) = i
    /\ location_hash (open i s) = url_fragment ("#photo=" ++ slugFor p)
    /\ (fragment_safe (slugFor p) = true ->
        location_hash (open i s) = ("#photo=" ++ slugFor p)%string)
    /\ (truthy (slug p) = false ->
        location_hash (open i s) = ("#photo=" ++ slugFor p)%string)
    /\ In (ReplaceState ("#photo=" ++ slugFor p)) (issued s (open i s))
    /\ In ModalShow (issued s (open i s)).
Proof.
  intros Hv. apply valid_index_in_range in Hv.
  destruct (show_in_range i s Hv) as (p & pre & Hp & _ & E).
  exists p. split; [exact Hp|].
  rewrite open_unfold, E. unfold isOpen. state_fields.
  split; [reflexivity|]. split; [reflexivity|]. split; [reflexivity|].
  split; [apply url_fragment_photo_safe|].
  split.
  { intros Hs. apply url_fragment_photo_safe.
    unfold slugFor. rewrite Hs. apply derived_slug_safe. }
  erewrite (issued_app _ _
              (ModalShow :: pre ++ [RequestFrame; ReplaceState _; Render i])%list).
  - split; [|left; reflexivity].
    right. apply in_or_app. right. right. left. reflexivity.
  - state_fields. rewrite <- app_comm_cons, <- app_assoc. reflexivity.
Qed.

Lemma open_valid_index_witness :
  let cat := [mkPhoto "a.jpg" None "a.jpg" None None None None None None;
              mkPhoto "b.jpg" (Some "bee") "b.jpg" None None None None None None] in
  valid_index 1 (loaded cat "")
  /\ isOpen (open 1 (loaded cat "")) = true
  /\ _currentIndex (open 1 (loaded cat "")) = 1
  /\ location_hash (open 1 (loaded cat "")) = "#photo=bee".
Proof.
  cbv zeta.
  assert (Hv : valid_index 1
            (loaded [mkPhoto "a.jpg" None "a.jpg" None None None None None None;
                     mkPhoto "b.jpg" (Some "bee") "b.jpg" None None None None None None] ""))
    by (unfold valid_index, count; cbn; lia).
  split; [exact Hv|].
  destruct (open_valid_index _ 1 Hv) as (p & Hp & Ho & Hi & _ & Hh & _).
  cbn in Hp. injection Hp as <-.
  split; [exact Ho|]. split; [exact Hi|]. exact (Hh eq_refl).
Defined.

(** C1 as worded fails: the browser percent-encodes the fragment it is
    given.  For a photo with the slug "my photo" the address reads
    [#photo=my%20photo] after [open], not [#photo=my photo]; the code
    never decodes it, so loading the page at that fragment finds no
    photo and leaves the viewer closed. *)
Lemma open_fragment_is_percent_encoded :
  let cat := [mkPhoto "1.jpg" (Some "my photo") "1.jpg" None None None None None None;
              mkPhoto "2.jpg" (Some "y") "2.jpg" None None None None None None] in
  valid_index 0 (loaded cat "")
  /\ slugFor (mkPhoto "1.jpg" (Some "my photo") "1.jpg" None None None None None None)
     = "my photo"
  /\ location_hash (open 0 (loaded cat "")) = "#photo=my%20photo"
  /\ location_hash (open 0 (loaded cat "")) <> "#photo=my photo"
  /\ isOpen (init cat (location_hash (open 0 (loaded cat "")))) = false.
Proof.
  cbv zeta. split; [unfold valid_index, count; cbn; lia|].
  split; [reflexivity|]. split; [vm_compute; reflexivity|].
  split; [vm_compute; discriminate | vm_compute; reflexivity].
Qed.

(** *** The fragment listener *)

Lemma startsWith_photo (sl : string) :
  startsWith ("#photo=" ++ sl) "#photo=" = true.
Proof. unfold startsWith. cbn. destruct sl; reflexivity. Qed.

Lemma replace_photo (sl : string) :
  replace_first "#photo=" "" ("#photo=" ++ sl) = sl.
Proof.
  change ("#photo=" ++ sl)%string
    with (String "#" (String "p" (String "h" (String "o" (String "t"
           (String "o" (String "=" sl))))))).
  unfold replace_first.
  change (String.prefix "#photo="
            (String "#" (String "p" (String "h" (String "o" (String "t"
               (String "o" (String "=" sl))))))))
    with (String.prefix "" sl).
  destruct sl; reflexivity.
Qed.

Lemma findIndex_from_spec {A} (pred : A -> bool) (l : list A) (i : Z) :
  (findIndex_from pred l i = -1 /\ forall x, In x l -> pred x = false)
  \/ (exists k x,
        findIndex_from pred l i = i + Z.of_nat k
        /\ l !! k = Some x /\ pred x = true
        /\ forall j y, (j < k)%nat -> l !! j = Some y -> pred y = false).
Proof.
  revert i. induction l as [|a l IH]; intros i.
  - left. split; [reflexivity | intros x []].
  - cbn [findIndex_from]. destruct (pred a) eqn:Ha.
    + right. exists 0%nat, a. repeat split; [lia | exact Ha | lia].
    + destruct (IH (i + 1)) as [[E Hall] | (k & x & E & Hk & Hx & Hmin)].
      * left. split; [exact E|]. intros x [<- | Hin]; auto.
      * right. exists (S k), x. repeat split; [lia | exact Hk | exact Hx |].
        intros [|j] y Hj Hy; cbn in Hy.
        -- injection Hy as <-. exact Ha.
        -- apply (Hmin j y); [lia | exact Hy].
Qed.

(** A slug some photo carries is found at the first photo carrying it. *)
Lemma indexBySlug_known (sl : string) (s : State) :
  (exists p, In p (_photos s) /\ slugFor p = sl) ->
  valid_index (indexBySlug sl s) s
  /\ exists p, _photos s !! Z.to_nat (indexBySlug sl s) = Some p
               /\ slugFor p = sl
               /\ forall j q, (j < Z.to_nat (indexBySlug sl s))%nat ->
                              _photos s !! j = Some q -> slugFor q <> sl.
Proof.
  intros (p & Hin & Hp). unfold indexBySlug.
  destruct (findIndex_from_spec (fun q => String.eqb (slugFor q) sl) (_photos s) 0)
    as [[_ Hall] | (k & x & E & Hk & Hx & Hmin)].
  - specialize (Hall p Hin). cbn in Hall.
    apply String.eqb_neq in Hall. contradiction.
  - rewrite E. replace (Z.to_nat (0 + Z.of_nat k)) with k by lia.
    split.
    + unfold valid_index, count. apply lookup_lt_Some in Hk. lia.
    + exists x. split; [exact Hk|]. split; [apply String.eqb_eq; exact Hx|].
      intros j q Hj Hq. apply String.eqb_neq. exact (Hmin j q Hj Hq).
Qed.

Lemma indexBySlug_unknown (sl : string) (s : State) :
  (forall p, In p (_photos s) -> slugFor p <> sl) -> indexBySlug sl s = -1.
Proof.
  intros Hno. unfold indexBySlug.
  destruct (findIndex_from_spec (fun q => String.eqb (slugFor q) sl) (_photos s) 0)
    as [[E _] | (k & x & _ & Hk & Hx & _)]; [exact E|].
  exfalso. apply (Hno x).
  - apply list_elem_of_In. apply list_elem_of_lookup. exists k. exact Hk.
  - apply String.eqb_eq. exact Hx.
Qed.

Lemma hashchange_suppressed (s : State) :
  _suppressHashChange s = true -> hashchange s = s.
Proof. intros H. unfold hashchange. rewrite H. reflexivity. Qed.

(** The listener at a fragment of the form [#photo=<slug>]. *)
Lemma hashchange_photo (sl : string) (s : State) :
  _suppressHashChange s = false ->
  step (HashChange ("#photo=" ++ sl)) s
  = let s0 := set_hash ("#photo=" ++ sl) s in
    if negb (indexBySlug sl s =? -1)
    then if modal_shown s then show (indexBySlug sl s) s0
         else open (indexBySlug sl s) s0
    else s0.
Proof.
  intros H. cbn [step]. unfold hashchange.
  change (_suppressHashChange (set_hash ("#photo=" ++ sl) s))
    with (_suppressHashChange s).
  change (location_hash (set_hash ("#photo=" ++ sl) s))
    with ("#photo=" ++ sl)%string.
  change (modal_shown (set_hash ("#photo=" ++ sl) s)) with (modal_shown s).
  rewrite H, startsWith_photo, replace_photo. reflexivity.
Qed.

(** The listener at any other fragment. *)
Lemma hashchange_other (h : string) (s : State) :
  _suppressHashChange s = false ->
  startsWith h "#photo=" = false ->
  step (HashChange h) s
  = if modal_shown s then modal_hide (set_hash h s) else set_hash h s.
Proof.
  intros H Hh. cbn [step]. unfold hashchange.
  change (_suppressHashChange (set_hash h s)) with (_suppressHashChange s).
  change (location_hash (set_hash h s)) with h.
  change (modal_shown (set_hash h s)) with (modal_shown s).
  rewrite H, Hh. reflexivity.
Qed.

(** C2.  Right after [setHash] has written a fragment, a change
    notification for that fragment (delivered before the animation
    frame that clears the flag) returns at once: the whole state,
    fragment included, is what [setHash] left.  The notification
    carries the fragment as the address holds it, which is
    [#photo=<slug>] as written whenever the slug holds no character the
    fragment encoding changes; whatever fragment a notification
    carries in that window, nothing but the fragment moves. *)
Theorem self_published_fragment_is_ignored (s : State) (sl : string) :
  _suppressHashChange (setHash sl s) = true
  /\ hashchange (setHash sl s) = setHash sl s
  /\ location_hash (setHash sl s) = url_fragment ("#photo=" ++ sl)
  /\ step (HashChange (location_hash (setHash sl s))) (setHash sl s)
     = setHash sl s
  /\ (forall h, step (HashChange h) (setHash sl s) = set_hash h (setHash sl s))
  /\ (fragment_safe sl = true ->
      step (HashChange ("#photo=" ++ sl)) (setHash sl s) = setHash sl s).
Proof.
  assert (Hdrop : forall h,
            step (HashChange h) (setHash sl s) = set_hash h (setHash sl s)).
  { intros h. cbn [step]. apply hashchange_suppressed. reflexivity. }
  split; [reflexivity|]. split; [apply hashchange_suppressed; reflexivity|].
  split; [reflexivity|]. split; [rewrite Hdrop; reflexivity|].
  split; [exact Hdrop|].
  intros Hs. rewrite Hdrop.
  rewrite <- (url_fragment_photo_safe sl Hs). reflexivity.
Qed.

(** C3.  A change notification that the flag does not suppress is
    reconciled as follows.  A fragment [#photo=<slug>] whose slug some
    photo carries moves the viewer to the first such photo: through
    [open] when the viewer is closed, through [show] alone (no request
    to the modal) when it is open.  A fragment that does not start with
    [#photo=] (removed, or of another form) hides the modal of an open
    viewer.  A fragment [#photo=<slug>] whose slug no photo carries
    changes nothing beyond the fragment the browser moved to. *)
Theorem hashchange_reconciles (s : State) (h : string) :
  _suppressHashChange s = false ->
  (forall sl,
      h = ("#photo=" ++ sl)%string ->
      (exists p, In p (_photos s) /\ slugFor p = sl) ->
      valid_index (indexBySlug sl s) s
      /\ (exists p, _photos s !! Z.to_nat (indexBySlug sl s) = Some p
                    /\ slugFor p = sl)
      /\ isOpen (step (HashChange h) s) = true
      /\ _currentIndex (step (HashChange h) s) = indexBySlug sl s
      /\ (isOpen s = false ->
          step (HashChange h) s = open (indexBySlug sl s) (set_hash h s))
      /\ (isOpen s = true ->
          step (HashChange h) s = show (indexBySlug sl s) (set_hash h s)
          /\ ~ In ModalShow (issued s (step (HashChange h) s))))
  /\ (startsWith h "#photo=" = false ->
      isOpen s = true ->
      isOpen (step (HashChange h) s) = false
      /\ step (HashChange h) s = modal_hide (set_hash h s))
  /\ (forall sl,
         h = ("#photo=" ++ sl)%string ->
         (forall p, In p (_photos s) -> slugFor p <> sl) ->
         step (HashChange h) s = set_hash h s).
Proof.
  intros Hflag. split; [|split].
  - intros sl -> Hknown.
    destruct (indexBySlug_known sl s Hknown) as (Hv & p & Hp & Hsl & _).
    split; [exact Hv|]. split; [exists p; split; assumption|].
    rewrite (hashchange_photo sl s Hflag). cbv zeta.
    assert (Hne : negb (indexBySlug sl s =? -1) = true).
    { apply negb_true_iff, Z.eqb_neq. destruct Hv. lia. }
    rewrite Hne.
    assert (Hr : out_of_range (indexBySlug sl s) (set_hash ("#photo=" ++ sl) s) = false)
      by (apply valid_index_in_range; exact Hv).
    pose proof (show_index (indexBySlug sl s) (set_hash ("#photo=" ++ sl) s)) as Hi.
    rewrite Hr in Hi.
    destruct (show_frame (indexBySlug sl s) (set_hash ("#photo=" ++ sl) s))
      as (_ & Hm & _ & _ & _ & new & Ht & Hnew & _).
    unfold isOpen. destruct (modal_shown s) eqn:Hopen.
    + split; [rewrite Hm; exact Hopen|]. split; [exact Hi|].
      split; [discriminate|]. intros _. split; [reflexivity|].
      rewrite (issued_app s _ new Ht). exact Hnew.
    + rewrite open_unfold. state_fields.
      split; [reflexivity|]. split; [exact Hi|].
      split; [reflexivity | discriminate].
  - intros Hh Hopen. unfold isOpen in *.
    rewrite (hashchange_other h s Hflag Hh), Hopen. split; reflexivity.
  - intros sl -> Hno.
    rewrite (hashchange_photo sl s Hflag), (indexBySlug_unknown sl s Hno).
    reflexivity.
Qed.

Lemma hashchange_reconciles_witness :
  let cat := [mkPhoto "a.jpg" None "a.jpg" None None None None None None;
              mkPhoto "b.jpg" None "b.jpg" None None None None None None] in
  _suppressHashChange (loaded cat "") = false
  /\ _currentIndex (step (HashChange "#photo=b") (loaded cat "")) = 1
  /\ isOpen (step (HashChange "#photo=b") (loaded cat "")) = true
  /\ step (HashChange "#photo=zzz") (loaded cat "")
     = set_hash "#photo=zzz" (loaded cat "").
Proof.
  cbv zeta.
  pose proof (hashchange_reconciles
    (loaded [mkPhoto "a.jpg" None "a.jpg" None None None None None None;
             mkPhoto "b.jpg" None "b.jpg" None None None None None None] "")
    "#photo=b" eq_refl) as (Hb & _ & _).
  pose proof (hashchange_reconciles
    (loaded [mkPhoto "a.jpg" None "a.jpg" None None None None None None;
             mkPhoto "b.jpg" None "b.jpg" None None None None None None] "")
    "#photo=zzz" eq_refl) as (_ & _ & Hz).
  split; [reflexivity|].
  destruct (Hb "b" eq_refl) as (_ & _ & Ho & Hi & _).
  - eexists. split; [right; left; reflexivity | vm_compute; reflexivity].
  - split; [rewrite Hi; vm_compute; reflexivity|]. split; [exact Ho|].
    apply (Hz "zzz" eq_refl).
    intros p [<- | [<- | []]]; vm_compute; discriminate.
Defined.

(** *** Indexes out of range *)

Lemma open_out_of_range (i : Z) (s : State) :
  ~ valid_index i s -> open i s = modal_show s.
Proof.
  intros H. unfold open. rewrite show_out_of_range; [reflexivity|].
  destruct (out_of_range i s) eqn:E; [reflexivity|].
  apply valid_index_in_range in E. contradiction.
Qed.

(** C4 fails on the code.  With one photo in the catalog and the viewer
    closed, [open 5] skips [show] but still calls [_modal.show()]: the
    viewer becomes open and a visibility request is issued; the index
    and the fragment stay as they were and nothing is rendered or
    prefetched. *)
Theorem open_out_of_range_shows_modal :
  let s := loaded [mkPhoto "a.jpg" None "a.jpg" None None None None None None] "" in
  ~ valid_index 5 s
  /\ isOpen s = false
  /\ isOpen (open 5 s) = true
  /\ issued s (open 5 s) = [ModalShow]
  /\ _currentIndex (open 5 s) = _currentIndex s
  /\ location_hash (open 5 s) = location_hash s.
Proof.
  cbv zeta. split.
  - unfold valid_index, count. cbn. lia.
  - repeat split.
Qed.

(** *** The index invariant *)

Lemma show_keeps_index_valid (i : Z) (s : State) :
  valid_index (_currentIndex s) s ->
  valid_index (_currentIndex (show i s)) (show i s).
Proof.
  intros H. unfold valid_index, count in *.
  destruct (show_frame i s) as (Hp & _). rewrite Hp, show_index.
  destruct (out_of_range i s) eqn:E; [exact H|].
  apply valid_index_in_range in E. exact E.
Qed.

Lemma modal_show_keeps_index_valid (s : State) :
  valid_index (_currentIndex s) s ->
  valid_index (_currentIndex (modal_show s)) (modal_show s).
Proof. intros H. exact H. Qed.

Lemma set_hash_keeps_index_valid (h : string) (s : State) :
  valid_index (_currentIndex s) s ->
  valid_index (_currentIndex (set_hash h s)) (set_hash h s).
Proof. intros H. exact H. Qed.

Lemma hashchange_keeps_index_valid (s : State) :
  valid_index (_currentIndex s) s ->
  valid_index (_currentIndex (hashchange s)) (hashchange s).
Proof.
  intros H. unfold hashchange.
  repeat match goal with
         | |- context [if ?b then _ else _] => destruct b
         end;
    try exact H;
    try (apply show_keeps_index_valid; exact H);
    try (apply modal_show_keeps_index_valid, show_keeps_index_valid; exact H).
Qed.

Lemma step_keeps_index_valid (e : Event) (s : State) :
  valid_index (_currentIndex s) s ->
  valid_index (_currentIndex (step e s)) (step e s).
Proof.
  intros H. destruct e; cbn [step].
  - apply modal_show_keeps_index_valid, show_keeps_index_valid; exact H.
  - apply show_keeps_index_valid; exact H.
  - apply show_keeps_index_valid; exact H.
  - unfold keydown. destruct (negb (modal_shown s)); [exact H|].
    destruct (String.eqb key "ArrowLeft"), (String.eqb key "ArrowRight");
      repeat apply show_keeps_index_valid; exact H.
  - exact H.
  - exact H.
  - unfold touchend.
    repeat match goal with
           | |- context [if ?b then _ else _] => destruct b
           end;
      try exact H; apply show_keeps_index_valid; exact H.
  - apply hashchange_keeps_index_valid, set_hash_keeps_index_valid; exact H.
  - unfold animation_frame. destruct (frames s); exact H.
  - destruct (modal_shown s); exact H.
  - exact H.
Qed.

(** Over a catalog that is not empty the current index is a valid index
    in every reachable state, whether the viewer is open or not. *)
Lemma reachable_index_valid (photos : list Photo) (s : State) :
  photos <> [] -> reachable photos s -> valid_index (_currentIndex s) s.
Proof.
  intros Hne Hr. induction Hr as [fragment | e s Hr IH].
  - unfold init, checkHash.
    assert (H0 : valid_index (_currentIndex (loaded photos fragment))
                   (loaded photos fragment)).
    { unfold valid_index, count. cbn.
      destruct photos; [contradiction | cbn; lia]. }
    repeat match goal with
           | |- context [if ?b then _ else _] => destruct b
           end;
      try exact H0.
    apply modal_show_keeps_index_valid, show_keeps_index_valid; exact H0.
  - apply step_keeps_index_valid; exact IH.
Qed.

(** C5 fails on the code.  On an empty catalog, [open 0] after [init]
    leaves the viewer open while the current index (0) is not an index
    into the catalog. *)
Theorem open_on_empty_catalog_breaks_invariant :
  reachable [] (step (CallOpen 0) (init [] ""))
  /\ isOpen (step (CallOpen 0) (init [] "")) = true
  /\ _currentIndex (step (CallOpen 0) (init [] "")) = 0
  /\ ~ valid_index (_currentIndex (step (CallOpen 0) (init [] "")))
                   (step (CallOpen 0) (init [] "")).
Proof.
  split; [apply reach_step, reach_init|].
  split; [reflexivity|]. split; [reflexivity|].
  intros [_ H]. vm_compute in H. discriminate H.
Qed.

(** *** Boundaries, closing, and a session from a deep link *)

Lemma show_beyond_the_ends (s : State) :
  show (-1) s = s /\ show (count s) s = s.
Proof.
  split; apply show_out_of_range; unfold out_of_range, count.
  - reflexivity.
  - rewrite Z.leb_refl. apply orb_true_r.
Qed.

(** The "fully hidden" notification empties the fragment. *)
Lemma modal_hidden_clears_fragment (s : State) :
  location_hash (step ModalHidden s) = ""
  /\ _suppressHashChange (step ModalHidden s) = true
  /\ _currentIndex (step ModalHidden s) = _currentIndex s
  /\ isOpen (step ModalHidden s) = isOpen s.
Proof. repeat split. Qed.

(** Three photos with the slugs a, b, c; the page is loaded at
    [#photo=b], the right arrow is pressed, and the browser goes back
    to [#photo=b]. *)
Example deep_link_session :
  let cat := [mkPhoto "1.jpg" (Some "a") "1.jpg" None None None None None None;
              mkPhoto "2.jpg" (Some "b") "2.jpg" None None None None None None;
              mkPhoto "3.jpg" (Some "c") "3.jpg" None None None None None None] in
  let s0 := init cat "#photo=b" in
  let s1 := run [AnimationFrame; KeyDown "ArrowRight"] s0 in
  let s2 := run [AnimationFrame; HashChange "#photo=b"] s1 in
  (isOpen s0 = true /\ _currentIndex s0 = 1)
  /\ (isOpen s1 = true /\ _currentIndex s1 = 2 /\ location_hash s1 = "#photo=c")
  /\ (isOpen s2 = true /\ _currentIndex s2 = 1 /\ location_hash s2 = "#photo=b").
Proof. vm_compute. repeat split. Qed.

(** *** Gestures, keys and clicks *)

Lemma swipe_intent_next (dx dy : Z) :
  swipe_intent true dx dy = Some Next
  <-> 50 < Z.abs dx /\ Z.abs dy < Z.abs dx /\ dx < 0.
Proof.
  unfold swipe_intent, SWIPE_THRESHOLD. cbn [negb].
  destruct (50 <? Z.abs dx) eqn:E1, (Z.abs dy <? Z.abs dx) eqn:E2,
    (dx <? 0) eqn:E3; cbn [andb];
    rewrite ?Z.ltb_lt, ?Z.ltb_ge in *;
    split; try discriminate; try reflexivity; lia.
Qed.

Lemma swipe_intent_prev (dx dy : Z) :
  swipe_intent true dx dy = Some Prev
  <-> 50 < Z.abs dx /\ Z.abs dy < Z.abs dx /\ 0 < dx.
Proof.
  unfold swipe_intent, SWIPE_THRESHOLD. cbn [negb].
  destruct (50 <? Z.abs dx) eqn:E1, (Z.abs dy <? Z.abs dx) eqn:E2,
    (dx <? 0) eqn:E3; cbn [andb];
    rewrite ?Z.ltb_lt, ?Z.ltb_ge in *;
    split; try discriminate; try reflexivity; lia.
Qed.

Lemma swipe_intent_none (dx dy : Z) :
  swipe_intent true dx dy = None
  <-> ~ (50 < Z.abs dx /\ Z.abs dy < Z.abs dx).
Proof.
  unfold swipe_intent, SWIPE_THRESHOLD. cbn [negb].
  destruct (50 <? Z.abs dx) eqn:E1, (Z.abs dy <? Z.abs dx) eqn:E2;
    cbn [andb]; rewrite ?Z.ltb_lt, ?Z.ltb_ge in *;
    split; try discriminate; try reflexivity; lia.
Qed.

Lemma touchend_is_intent (x y : Z) (s : State) :
  touchend x y s
  = navigate_intent
      (swipe_intent (_touchMoved s) (x - _touchStartX s) (y - _touchStartY s)) s.
Proof.
  unfold touchend, swipe_intent, navigate_intent.
  destruct (negb (_touchMoved s)); [reflexivity|]. cbv zeta.
  destruct ((SWIPE_THRESHOLD <? Z.abs (x - _touchStartX s))
            && (Z.abs (y - _touchStartY s) <? Z.abs (x - _touchStartX s)))%bool;
    [|reflexivity].
  destruct (x - _touchStartX s <? 0); reflexivity.
Qed.

(** C7.  The touch-end listener dispatches the intent [swipe_intent]
    computes from the moved flag and the displacement.  Without recorded
    movement there is no intent whatever the displacement (and a touch
    that starts and ends with no move in between changes nothing).  With
    recorded movement the intent is [Next] exactly when |dx| > 50,
    |dx| > |dy| and dx < 0, [Prev] exactly when |dx| > 50, |dx| > |dy|
    and dx > 0, and absent exactly when the two bounds do not both hold;
    the four sample displacements classify as the specification lists
    them, also through the listeners themselves. *)
Theorem touch_classification (s : State) (x0 y0 x y : Z) :
  touchend x y s
  = navigate_intent
      (swipe_intent (_touchMoved s) (x - _touchStartX s) (y - _touchStartY s)) s
  /\ (forall dx dy, swipe_intent false dx dy = None)
  /\ step (TouchEnd x y) (step (TouchStart x0 y0) s) = step (TouchStart x0 y0) s
  /\ (forall dx dy, swipe_intent true dx dy = Some Next
                    <-> 50 < Z.abs dx /\ Z.abs dy < Z.abs dx /\ dx < 0)
  /\ (forall dx dy, swipe_intent true dx dy = Some Prev
                    <-> 50 < Z.abs dx /\ Z.abs dy < Z.abs dx /\ 0 < dx)
  /\ (forall dx dy, swipe_intent true dx dy = None
                    <-> ~ (50 < Z.abs dx /\ Z.abs dy < Z.abs dx))
  /\ swipe_intent true (-60) 5 = Some Next
  /\ swipe_intent true 60 5 = Some Prev
  /\ swipe_intent true 30 5 = None
  /\ swipe_intent true 60 70 = None
  /\ (let m := step TouchMove (step (TouchStart x0 y0) s) in
      step (TouchEnd (x0 - 60) (y0 + 5)) m = show (_currentIndex s + 1) m
      /\ step (TouchEnd (x0 + 60) (y0 + 5)) m = show (_currentIndex s - 1) m
      /\ step (TouchEnd (x0 + 30) (y0 + 5)) m = m
      /\ step (TouchEnd (x0 + 60) (y0 + 70)) m = m).
Proof.
  split; [apply touchend_is_intent|].
  split; [reflexivity|].
  split; [reflexivity|].
  split; [apply swipe_intent_next|].
  split; [apply swipe_intent_prev|].
  split; [apply swipe_intent_none|].
  repeat (split; [reflexivity|]).
  cbv zeta. cbn [step]. rewrite !touchend_is_intent.
  change (_touchMoved (touchmove (touchstart x0 y0 s))) with true.
  change (_touchStartX (touchmove (touchstart x0 y0 s))) with x0.
  change (_touchStartY (touchmove (touchstart x0 y0 s))) with y0.
  replace (x0 - 60 - x0) with (-60) by lia.
  replace (x0 + 60 - x0) with 60 by lia.
  replace (x0 + 30 - x0) with 30 by lia.
  replace (y0 + 5 - y0) with 5 by lia.
  replace (y0 + 70 - y0) with 70 by lia.
  repeat split.
Qed.

Lemma keydown_closed (key : string) (s : State) :
  isOpen s = false -> keydown key s = s.
Proof. unfold isOpen, keydown. intros ->. reflexivity. Qed.

Lemma input_never_opens (e : Event) (s : State) :
  is_input e = true ->
  modal_shown (step e s) = modal_shown s
  /\ exists new, trace (step e s) = (new ++ trace s)%list /\ ~ In ModalShow new.
Proof.
  assert (Hshow : forall i,
    modal_shown (show i s) = modal_shown s
    /\ exists new, trace (show i s) = (new ++ trace s)%list /\ ~ In ModalShow new).
  { intros i. destruct (show_frame i s) as (_ & Hm & _ & _ & _ & new & Ht & Hn & _).
    split; [exact Hm|]. exists new. split; assumption. }
  assert (Hsame : modal_shown s = modal_shown s
    /\ exists new, trace s = (new ++ trace s)%list /\ ~ In ModalShow new).
  { split; [reflexivity|]. exists []. split; [reflexivity | intros []]. }
  destruct e; try discriminate; intros _; cbn [step].
  - apply Hshow.
  - apply Hshow.
  - unfold keydown. destruct (negb (modal_shown s)); [exact Hsame|].
    destruct (String.eqb key "ArrowLeft") eqn:El.
    + apply String.eqb_eq in El. subst key.
      change ("ArrowLeft" =? "ArrowRight")%string with false. apply Hshow.
    + destruct (String.eqb key "ArrowRight"); [apply Hshow | exact Hsame].
  - exact Hsame.
  - exact Hsame.
  - rewrite touchend_is_intent. unfold navigate_intent.
    destruct (swipe_intent _ _ _) as [[|]|]; [apply Hshow | apply Hshow | exact Hsame].
Qed.

(** C8 (amended).  While the viewer is closed a key press changes nothing
    at all, and no key, touch or click input opens the viewer: it stays
    closed and the modal receives no visibility request. *)
Theorem closed_viewer_stays_closed (e : Event) (s : State) :
  isOpen s = false ->
  is_input e = true ->
  isOpen (step e s) = false
  /\ ~ In ModalShow (issued s (step e s))
  /\ (forall key, e = KeyDown key -> step e s = s).
Proof.
  intros Hc He. destruct (input_never_opens e s He) as (Hm & new & Ht & Hn).
  unfold isOpen in *. split; [rewrite Hm; exact Hc|]. split.
  - rewrite (issued_app s _ new Ht). exact Hn.
  - intros key ->. cbn [step]. apply keydown_closed. exact Hc.
Qed.

Lemma closed_viewer_stays_closed_witness :
  let s := loaded [mkPhoto "a.jpg" None "a.jpg" None None None None None None;
                   mkPhoto "b.jpg" None "b.jpg" None None None None None None] "" in
  isOpen s = false
  /\ is_input ClickNext = true
  /\ isOpen (step ClickNext s) = false
  /\ ~ In ModalShow (issued s (step ClickNext s)).
Proof.
  cbv zeta. split; [reflexivity|]. split; [reflexivity|].
  destruct (closed_viewer_stays_closed ClickNext
    (loaded [mkPhoto "a.jpg" None "a.jpg" None None None None None None;
             mkPhoto "b.jpg" None "b.jpg" None None None None None None] "")
    eq_refl eq_refl) as (H1 & H2 & _).
  split; [exact H1 | exact H2].
Defined.

(** C8 as worded fails: the click and touch listeners carry no check
    that the viewer is open.  On a closed viewer over two photos a click
    on "next" navigates (index 0 to 1, a render, a fragment write), and
    so does a swipe. *)
Lemma closed_viewer_click_navigates :
  let s := loaded [mkPhoto "a.jpg" None "a.jpg" None None None None None None;
                   mkPhoto "b.jpg" None "b.jpg" None None None None None None] "" in
  isOpen s = false
  /\ _currentIndex s = 0
  /\ _currentIndex (step ClickNext s) = 1
  /\ location_hash (step ClickNext s) = "#photo=b"
  /\ In (Render 1) (issued s (step ClickNext s))
  /\ _currentIndex
       (run [TouchStart 100 100; TouchMove; TouchEnd 40 105] s) = 1.
Proof. cbv zeta. repeat split. vm_compute. tauto. Qed.

(** *** Sharing *)

Lemma share_resolved (h : Host) (s : State) :
  clipboard h = ClipboardResolves ->
  share h s
  = (Completed,
     WriteText (page_url h ++ location_hash s)
       :: showToast h "Link copied to clipboard").
Proof. intros H. unfold share. rewrite H. reflexivity. Qed.

Lemma share_rejected (h : Host) (s : State) (copied : bool) :
  clipboard h = ClipboardRejects ->
  execCommand_copy h = ExecReturns copied ->
  share h s
  = (Completed,
     [WriteText (page_url h ++ location_hash s);
      AppendTextarea (page_url h ++ location_hash s);
      SelectTextarea; ExecCopy; RemoveTextarea]
       ++ showToast h "Link copied to clipboard")%list.
Proof. intros H1 H2. unfold share. rewrite H1, H2. reflexivity. Qed.

Lemma showToast_present (h : Host) (message : string) :
  shareToast h = true -> shareToastBody h = true ->
  showToast h message = [ToastBodyText message; ToastShow 2000].
Proof. intros H1 H2. unfold showToast. rewrite H1, H2. reflexivity. Qed.

Lemma showToast_absent (h : Host) (message : string) :
  shareToast h = false \/ shareToastBody h = false ->
  showToast h message = [].
Proof.
  unfold showToast. intros [-> | ->]; [reflexivity|].
  rewrite orb_true_r. reflexivity.
Qed.

(** With the clipboard interface in place: a fulfilled or a rejected
    write both end in the toast (when its elements exist), and a missing
    toast element makes [share] end quietly. *)
Lemma share_with_clipboard (h : Host) (s : State) :
  clipboard h <> ClipboardMissing ->
  execCommand_copy h <> ExecThrows ->
  fst (share h s) = Completed
  /\ toast_shown (share h s) = (shareToast h && shareToastBody h)%bool.
Proof.
  intros Hc He. unfold share, toast_shown, showToast.
  destruct (clipboard h); [contradiction| |];
    [|destruct (execCommand_copy h); [|contradiction]];
    destruct (shareToast h), (shareToastBody h); split; reflexivity.
Qed.

(** C9 fails on the code.  On a page where [navigator.clipboard] is
    undefined (an insecure context, an older browser) the expression
    [navigator.clipboard.writeText] throws before any promise exists:
    the fallback copy never runs and no toast is shown, although the
    fallback would have copied and both toast elements are present. *)
Theorem share_without_clipboard_interface :
  let h := mkHost "https://example.org/" ClipboardMissing (ExecReturns true) true true in
  let s := loaded [mkPhoto "a.jpg" None "a.jpg" None None None None None None] "#photo=a" in
  share h s = (TypeErrorThrown, [])
  /\ toast_shown (share h s) = false
  /\ ~ In ExecCopy (snd (share h s)).
Proof. cbv zeta. split; [reflexivity|]. split; [reflexivity|]. intros []. Qed.

End ViewerFacts.


(* ===================================================================== *)
(** ** Properties of lazy loading *)
(* ===================================================================== *)

Section LazyFacts.
Import JsString LazyLoad.

Lemma on_entry_images (e : Entry) (p : Page) (k : nat) :
  images (on_entry e p) !! k = images p !! k
  \/ (k = target e /\ isIntersecting e = true
      /\ exists img, images p !! k = Some img /\ truthy (data_src img) = true).
Proof.
  unfold on_entry. destruct (isIntersecting e); cbn [negb]; [|left; reflexivity].
  destruct (images p !! target e) as [img|] eqn:Hl; [|left; reflexivity].
  destruct (truthy (data_src img)) eqn:Ht; cbn [negb]; [|left; reflexivity].
  cbn [images]. destruct (decide (target e = k)) as [<-|Hne].
  - right. repeat split. exists img. split; assumption.
  - left. apply lookup_insert_ne. exact Hne.
Qed.

(** An image without a usable [data-src] is left as it is. *)
Lemma on_entry_skips (e : Entry) (p : Page) (k : nat) (img : Img) :
  images p !! k = Some img ->
  truthy (data_src img) = false ->
  images (on_entry e p) !! k = Some img.
Proof.
  intros Hl Ht. destruct (on_entry_images e p k) as [-> | (_ & _ & i & Hi & Hti)].
  - exact Hl.
  - rewrite Hl in Hi. injection Hi as <-. congruence.
Qed.

Lemma on_entry_observed (e : Entry) (p : Page) :
  observed (on_entry e p) ⊆ observed p.
Proof.
  unfold on_entry. destruct (isIntersecting e); cbn [negb]; [|done].
  destruct (images p !! target e) as [img|]; [|done].
  destruct (truthy (data_src img)); cbn [negb observed]; [|done].
  intros x Hx. apply elem_of_difference in Hx. tauto.
Qed.

Lemma querySelectorAll_spec (imgs : gmap nat Img) (k : nat) :
  k ∈ querySelectorAll imgs
  <-> exists img, imgs !! k = Some img /\ selected img = true.
Proof.
  unfold querySelectorAll. rewrite elem_of_dom. split.
  - intros [img H]. apply map_lookup_filter_Some in H. exists img. exact H.
  - intros (img & Hl & Hs). exists img. apply map_lookup_filter_Some. split; assumption.
Qed.

(** Once loaded (no [data-src], not observed) an image is out of the
    module's reach. *)
Lemma act_keeps_loaded (a : Action) (p : Page) (k : nat) (img : Img) :
  images p !! k = Some img -> data_src img = None -> k ∉ observed p ->
  images (act a p) !! k = Some img /\ k ∉ observed (act a p).
Proof.
  intros Hl Hd Ho. destruct a as [entries|]; cbn [act].
  - unfold onIntersect. revert p Hl Ho.
    induction entries as [|e es IH]; intros p Hl Ho; [split; assumption|].
    cbn [fold_left]. apply IH.
    + apply on_entry_skips; [exact Hl | rewrite Hd; reflexivity].
    + intros Hin. apply Ho. exact (on_entry_observed e p k Hin).
  - unfold refresh. cbn [images observed]. split; [exact Hl|].
    rewrite elem_of_union. intros [Hin | Hin]; [exact (Ho Hin)|].
    apply querySelectorAll_spec in Hin. destruct Hin as (i & Hi & Hs).
    rewrite Hl in Hi. injection Hi as <-.
    unfold selected in Hs. rewrite Hd in Hs. apply andb_true_iff in Hs.
    destruct Hs as [_ Hs]. apply bool_decide_eq_true in Hs.
    destruct Hs as [x Hx]. discriminate Hx.
Qed.

Lemma run_keeps_loaded (acts : list Action) (p : Page) (k : nat) (img : Img) :
  images p !! k = Some img -> data_src img = None -> k ∉ observed p ->
  images (run acts p) !! k = Some img /\ k ∉ observed (run acts p).
Proof.
  revert p. induction acts as [|a acts IH]; intros p Hl Hd Ho; [split; assumption|].
  unfold run. cbn [fold_left].
  destruct (act_keeps_loaded a p k img Hl Hd Ho) as [Hl' Ho'].
  apply IH; assumption.
Qed.

(** The effect of an intersecting entry on an image that still has its
    [data-src]. *)
Lemma on_entry_loads (p : Page) (k : nat) (img : Img) :
  images p !! k = Some img ->
  truthy (data_src img) = true ->
  on_entry (mkEntry k true) p
  = mkPage
      (<[k := mkImg (lazy img) None
                (if truthy (data_srcset img) then None else data_srcset img)
                (data_src img)
                (if truthy (data_srcset img) then data_srcset img else srcset img)
                (S (load_listeners img)) (S (src_writes img))]> (images p))
      (observed p ∖ {[k]}).
Proof.
  intros Hl Ht. unfold on_entry. cbn [isIntersecting target negb].
  rewrite Hl, Ht. cbn [negb].
  destruct (truthy (data_srcset img)); reflexivity.
Qed.

Lemma on_entry_written_once (e : Entry) (p : Page) :
  (forall k img, images p !! k = Some img -> written_once img) ->
  forall k img, images (on_entry e p) !! k = Some img -> written_once img.
Proof.
  intros Hinv k img' Hl'.
  destruct (on_entry_images e p k) as [E | (-> & Hi & img & Hl & Ht)].
  - rewrite E in Hl'. exact (Hinv k img' Hl').
  - destruct e as [t b]. cbn [target isIntersecting] in *. subst b.
    rewrite (on_entry_loads p t img Hl Ht) in Hl'. cbn [images] in Hl'.
    rewrite lookup_insert_eq in Hl'. injection Hl' as <-.
    right. cbn [src_writes data_src]. split; [|reflexivity].
    destruct (Hinv t img Hl) as [-> | [_ Hd]]; [reflexivity|].
    rewrite Hd in Ht. discriminate Ht.
Qed.

Lemma act_written_once (a : Action) (p : Page) :
  (forall k img, images p !! k = Some img -> written_once img) ->
  forall k img, images (act a p) !! k = Some img -> written_once img.
Proof.
  destruct a as [entries|]; cbn [act]; [|intros H; exact H].
  unfold onIntersect. revert p.
  induction entries as [|e es IH]; intros p Hinv; [exact Hinv|].
  cbn [fold_left]. apply IH. apply on_entry_written_once. exact Hinv.
Qed.

Lemma run_written_once (acts : list Action) (p : Page) :
  (forall k img, images p !! k = Some img -> written_once img) ->
  forall k img, images (run acts p) !! k = Some img -> written_once img.
Proof.
  revert p. induction acts as [|a acts IH]; intros p Hinv; [exact Hinv|].
  unfold run. cbn [fold_left]. apply IH. apply act_written_once. exact Hinv.
Qed.

(** Starting from a page on which no source was assigned yet, no image
    ever gets its source assigned twice. *)
Lemma source_written_at_most_once (imgs : gmap nat Img) (acts : list Action) (k : nat) :
  (forall j i, imgs !! j = Some i -> src_writes i = 0%nat) ->
  (writes_of k (run acts (observe imgs)) <= 1)%nat.
Proof.
  intros H0. unfold writes_of.
  destruct (images (run acts (observe imgs)) !! k) as [img|] eqn:Hl; [|lia].
  assert (Hw : written_once img).
  { apply (run_written_once acts (observe imgs)) with (k := k); [|exact Hl].
    intros j i Hj. left. exact (H0 j i Hj). }
  destruct Hw as [-> | [-> _]]; lia.
Qed.

(** An image whose [data-src] is empty or missing is skipped by every
    batch: it stays as it is, and observed if it was. *)
Lemma on_entry_keeps_skipped (e : Entry) (q : Page) (j : nat) (skipped : Img) :
  images q !! j = Some skipped ->
  truthy (data_src skipped) = false ->
  (target e = j -> on_entry e q = q)
  /\ images (on_entry e q) !! j = Some skipped
  /\ (j ∈ observed q -> j ∈ observed (on_entry e q)).
Proof.
  intros Hl Ht. split; [|split].
  - intros <-. unfold on_entry. destruct (isIntersecting e); [|reflexivity].
    cbn [negb]. rewrite Hl, Ht. reflexivity.
  - apply on_entry_skips; assumption.
  - intros Ho. unfold on_entry.
    destruct (isIntersecting e); cbn [negb]; [|exact Ho].
    destruct (images q !! target e) as [img|] eqn:Hi; [|exact Ho].
    destruct (truthy (data_src img)) eqn:Hti; cbn [negb observed]; [|exact Ho].
    apply elem_of_difference. split; [exact Ho|].
    intros Hk. apply elem_of_singleton in Hk. subst j.
    rewrite Hl in Hi. injection Hi as <-. congruence.
Qed.

Lemma onIntersect_keeps_skipped
    (entries : list Entry) (q : Page) (j : nat) (skipped : Img) :
  images q !! j = Some skipped ->
  truthy (data_src skipped) = false ->
  images (onIntersect entries q) !! j = Some skipped
  /\ (j ∈ observed q -> j ∈ observed (onIntersect entries q)).
Proof.
  revert q. induction entries as [|e es IH]; intros q Hl Ht; [split; auto|].
  destruct (on_entry_keeps_skipped e q j skipped Hl Ht) as (_ & Hl' & Ho').
  destruct (IH (on_entry e q) Hl' Ht) as [Hl2 Ho2].
  unfold onIntersect in *. cbn [fold_left].
  split; [exact Hl2 | intros Ho; exact (Ho2 (Ho' Ho))].
Qed.

(** C10 (amended).  A notification that does not intersect changes
    nothing.  For an image whose [data-src] is present and not
    empty, an intersecting notification copies [data-src] to [src]
    (and [data-srcset] to [srcset] when that one is present and not
    empty), removes the attributes it copied, registers the load
    listener and unobserves the image; whatever notifications and
    refreshes follow leave the image as it then is and unobserved.
    From a page on which no source was assigned yet, no image has its
    source assigned more than once.  An image whose [data-src] is
    empty (or missing) is skipped: an intersecting notification for it
    leaves the whole page as it is, and through any batch of
    notifications the image keeps its state, nothing is assigned to
    it, and it stays observed. *)
Theorem lazy_source_assigned_once
    (p : Page) (k : nat) (img : Img) (v : string) (later : list Action) :
  images p !! k = Some img ->
  data_src img = Some v ->
  v <> "" ->
  onIntersect [mkEntry k false] p = p
  /\ (exists img',
      images (onIntersect [mkEntry k true] p) !! k = Some img'
      /\ src img' = Some v
      /\ data_src img' = None
      /\ src_writes img' = S (src_writes img)
      /\ (truthy (data_srcset img) = true ->
          srcset img' = data_srcset img /\ data_srcset img' = None)
      /\ (truthy (data_srcset img) = false ->
          srcset img' = srcset img /\ data_srcset img' = data_srcset img)
      /\ (k ∉ observed (onIntersect [mkEntry k true] p))
      /\ images (run later (onIntersect [mkEntry k true] p)) !! k = Some img'
      /\ (k ∉ observed (run later (onIntersect [mkEntry k true] p))))
  /\ (forall imgs acts j,
         (forall n i, imgs !! n = Some i -> src_writes i = 0%nat) ->
         (writes_of j (run acts (observe imgs)) <= 1)%nat)
  /\ (forall q j skipped entries,
         images q !! j = Some skipped ->
         data_src skipped = Some "" \/ data_src skipped = None ->
         onIntersect [mkEntry j true] q = q
         /\ images (onIntersect entries q) !! j = Some skipped
         /\ (j ∈ observed q -> j ∈ observed (onIntersect entries q))).
Proof.
  intros Hl Hd Hv. split; [reflexivity|]. split; [|split].
  - assert (Ht : truthy (data_src img) = true).
    { rewrite Hd. destruct v; [contradiction | reflexivity]. }
    unfold onIntersect. cbn [fold_left].
    rewrite (on_entry_loads p k img Hl Ht).
    eexists. split; [cbn [images]; apply lookup_insert_eq|].
    cbn [src data_src src_writes srcset data_srcset].
    split; [exact Hd|]. split; [reflexivity|]. split; [reflexivity|].
    split; [intros ->; split; reflexivity|].
    split; [intros ->; split; reflexivity|].
    assert (Ho : k ∉ observed p ∖ {[k]}).
    { intros Hin. apply elem_of_difference in Hin. destruct Hin as [_ Hn].
      apply Hn. apply elem_of_singleton. reflexivity. }
    split; [exact Ho|].
    apply run_keeps_loaded; [apply lookup_insert_eq | reflexivity | exact Ho].
  - intros imgs acts j H0. apply source_written_at_most_once. exact H0.
  - intros q j skipped entries Hq Hs.
    assert (Ht : truthy (data_src skipped) = false)
      by (destruct Hs as [-> | ->]; reflexivity).
    split; [|exact (onIntersect_keeps_skipped entries q j skipped Hq Ht)].
    unfold onIntersect. cbn [fold_left].
    exact (proj1 (on_entry_keeps_skipped (mkEntry j true) q j skipped Hq Ht) eq_refl).
Qed.

Lemma lazy_source_assigned_once_witness :
  let img := mkImg true (Some "a.jpg") (Some "a.jpg 1x") None None 0 0 in
  let p := observe {[ 7%nat := img ]} in
  images p !! 7%nat = Some img
  /\ data_src img = Some "a.jpg"
  /\ "a.jpg" <> ""
  /\ images (onIntersect [mkEntry 7 true] p) !! 7%nat
     = Some (mkImg true None None (Some "a.jpg") (Some "a.jpg 1x") 1 1)
  /\ images (run [Refresh; Intersect [mkEntry 7 true; mkEntry 7 true]]
               (onIntersect [mkEntry 7 true] p)) !! 7%nat
     = Some (mkImg true None None (Some "a.jpg") (Some "a.jpg 1x") 1 1).
Proof.
  cbv zeta.
  assert (Hl : images (observe {[ 7%nat := mkImg true (Some "a.jpg") (Some "a.jpg 1x") None None 0 0 ]})
               !! 7%nat
               = Some (mkImg true (Some "a.jpg") (Some "a.jpg 1x") None None 0 0))
    by (cbn [observe images]; apply lookup_singleton_eq).
  assert (Hv : "a.jpg" <> "") by discriminate.
  split; [exact Hl|]. split; [reflexivity|]. split; [exact Hv|].
  destruct (lazy_source_assigned_once _ 7%nat _ "a.jpg"
              [Refresh; Intersect [mkEntry 7 true; mkEntry 7 true]]
              Hl eq_refl Hv)
    as (_ & (img' & H1 & Hs & Hd & Hw & Hset & _ & _ & Hlater & _) & _).
  destruct (Hset eq_refl) as [Hss Hds].
  assert (E : img' = mkImg true None None (Some "a.jpg") (Some "a.jpg 1x") 1 1).
  { unfold onIntersect in H1. cbn [fold_left] in H1.
    rewrite (on_entry_loads _ 7%nat _ Hl eq_refl) in H1.
    cbn [images] in H1. rewrite lookup_insert_eq in H1.
    injection H1 as <-. reflexivity. }
  rewrite <- E. split; [exact H1 | exact Hlater].
Defined.

(** C10 as worded fails: an image that carries an empty [data-src] is
    matched by the selector and observed, yet an intersecting
    notification leaves it without a source, with its attribute, and
    still observed. *)
Lemma lazy_empty_data_src_is_skipped :
  let img := mkImg true (Some "") None None None 0 0 in
  let p := observe {[ 7%nat := img ]} in
  (7%nat ∈ observed p)
  /\ onIntersect [mkEntry 7 true] p = p
  /\ images (onIntersect [mkEntry 7 true] p) !! 7%nat = Some img
  /\ src img = None
  /\ data_src img = Some ""
  /\ (7%nat ∈ observed (onIntersect [mkEntry 7 true] p)).
Proof.
  cbv zeta.
  assert (Hl : images (observe {[ 7%nat := mkImg true (Some "") None None None 0 0 ]})
               !! 7%nat
               = Some (mkImg true (Some "") None None None 0 0))
    by (cbn [observe images]; apply lookup_singleton_eq).
  assert (Ho : 7%nat ∈ observed (observe {[ 7%nat := mkImg true (Some "") None None None 0 0 ]})).
  { cbn [observe observed]. apply querySelectorAll_spec.
    eexists. split; [apply lookup_singleton_eq|]. reflexivity. }
  assert (E : onIntersect [mkEntry 7 true]
                (observe {[ 7%nat := mkImg true (Some "") None None None 0 0 ]})
              = observe {[ 7%nat := mkImg true (Some "") None None None 0 0 ]}).
  { unfold onIntersect. cbn [fold_left]. unfold on_entry.
    cbn [isIntersecting target negb]. rewrite Hl. reflexivity. }
  rewrite E. repeat split; assumption.
Qed.

End LazyFacts.


(* ===================================================================== *)
(** ** Look-up by slug, deep links and what [show] requests *)
(* ===================================================================== *)

Section DeepLinkFacts.
Import JsString UrlFragment LightboxModule ViewerVocabulary.

Lemma lookup_map_slugFor (l : list Photo) (i : nat) :
  map slugFor l !! i = slugFor <$> (l !! i).
Proof.
  revert i. induction l as [|a l IH]; intros [|i]; cbn; auto.
Qed.

(** With pairwise distinct slugs the look-up inverts [slugFor]. *)
Lemma indexBySlug_inverts (s : State) (i : nat) (p : Photo) :
  NoDup (slugs s) -> _photos s !! i = Some p ->
  indexBySlug (slugFor p) s = Z.of_nat i.
Proof.
  intros Hnd Hp.
  destruct (indexBySlug_known (slugFor p) s) as (Hv & q & Hq & Hsl & _).
  { exists p. split; [|reflexivity].
    apply list_elem_of_In, list_elem_of_lookup. exists i. exact Hp. }
  assert (E : Z.to_nat (indexBySlug (slugFor p) s) = i).
  { apply (NoDup_lookup (slugs s) _ _ (slugFor p) Hnd); unfold slugs;
      rewrite lookup_map_slugFor.
    - rewrite Hq. cbn. f_equal. exact Hsl.
    - rewrite Hp. reflexivity. }
  destruct Hv as [H0 _]. lia.
Qed.

(** X3.  [indexBySlug] answers -1 exactly when no photo carries the
    slug; any other answer is a valid index, that of the first photo
    carrying the slug; and when the slugs of the catalog are pairwise
    distinct it returns the position of every photo from that photo's
    slug. *)
Theorem indexBySlug_lookup (sl : string) (s : State) :
  (indexBySlug sl s = -1 <-> forall p, In p (_photos s) -> slugFor p <> sl)
  /\ (indexBySlug sl s <> -1 ->
      valid_index (indexBySlug sl s) s
      /\ exists p, _photos s !! Z.to_nat (indexBySlug sl s) = Some p
                   /\ slugFor p = sl
                   /\ forall j q, (j < Z.to_nat (indexBySlug sl s))%nat ->
                                  _photos s !! j = Some q -> slugFor q <> sl)
  /\ (forall i p, NoDup (slugs s) -> _photos s !! i = Some p ->
                  indexBySlug (slugFor p) s = Z.of_nat i).
Proof.
  assert (Hcases : (forall p, In p (_photos s) -> slugFor p <> sl)
                   \/ exists p, In p (_photos s) /\ slugFor p = sl).
  { induction (_photos s) as [|a l IH]; [left; intros p []|].
    destruct (String.eqb_spec (slugFor a) sl) as [E|E].
    - right. exists a. split; [left; reflexivity | exact E].
    - destruct IH as [Hno | (p & Hin & Hp)].
      + left. intros p [<- | Hin]; [exact E | exact (Hno p Hin)].
      + right. exists p. split; [right; exact Hin | exact Hp]. }
  split; [|split].
  - split; [|apply indexBySlug_unknown].
    intros E p Hin Hp.
    destruct (indexBySlug_known sl s) as ([H0 _] & _); [exists p; tauto | lia].
  - intros Hne. destruct Hcases as [Hno | Hyes].
    + rewrite (indexBySlug_unknown sl s Hno) in Hne. contradiction.
    + exact (indexBySlug_known sl s Hyes).
  - intros i p. apply indexBySlug_inverts.
Qed.

(** *** The start-up check *)

Lemma open_fields (i : Z) (s : State) :
  out_of_range i s = false ->
  exists p,
    _photos s !! Z.to_nat i = Some p
    /\ isOpen (open i s) = true
    /\ _currentIndex (open i s) = i
    /\ location_hash (open i s) = url_fragment ("#photo=" ++ slugFor p)
    /\ _suppressHashChange (open i s) = true
    /\ _photos (open i s) = _photos s.
Proof.
  intros H. destruct (show_in_range i s H) as (p & pre & Hp & _ & E).
  exists p. split; [exact Hp|]. rewrite open_unfold, E. repeat split.
Qed.

Lemma checkHash_other (s : State) :
  startsWith (location_hash s) "#photo=" = false -> checkHash s = s.
Proof. intros H. unfold checkHash. cbv zeta. rewrite H. reflexivity. Qed.

Lemma checkHash_photo (sl : string) (s : State) :
  location_hash s = ("#photo=" ++ sl)%string ->
  checkHash s
  = if negb (indexBySlug sl s =? -1) then open (indexBySlug sl s) s else s.
Proof.
  intros H. unfold checkHash. cbv zeta.
  rewrite H, startsWith_photo, replace_photo. reflexivity.
Qed.

(** X4.  What [init] does with the fragment of the address.  A fragment
    that does not start with [#photo=], or one whose slug no photo
    carries, leaves the page as loaded: viewer closed, nothing rendered
    or requested.  A fragment [#photo=<slug>] of a known slug opens the
    viewer at the first photo carrying it, and the fragment is written
    again: the address then holds its serialisation, which for a
    fragment read from the address is the fragment itself. *)
Theorem init_deep_link (photos : list Photo) (f : string) :
  (startsWith f "#photo=" = false -> init photos f = loaded photos f)
  /\ (forall sl, f = ("#photo=" ++ sl)%string ->
                 (forall p, In p photos -> slugFor p <> sl) ->
                 init photos f = loaded photos f)
  /\ (forall sl, f = ("#photo=" ++ sl)%string ->
                 (exists p, In p photos /\ slugFor p = sl) ->
                 let idx := indexBySlug sl (loaded photos f) in
                 init photos f = open idx (loaded photos f)
                 /\ valid_index idx (loaded photos f)
                 /\ isOpen (init photos f) = true
                 /\ _currentIndex (init photos f) = idx
                 /\ location_hash (init photos f) = url_fragment f
                 /\ (url_fragment f = f -> location_hash (init photos f) = f))
  /\ (forall written, url_fragment (url_fragment written) = url_fragment written).
Proof.
  unfold init. split; [|split; [|split]]; [| | |apply url_fragment_idempotent].
  - intros H. apply checkHash_other. exact H.
  - intros sl -> Hno.
    rewrite (checkHash_photo sl); [|reflexivity].
    rewrite (indexBySlug_unknown sl (loaded photos ("#photo=" ++ sl)) Hno).
    reflexivity.
  - intros sl -> Hyes. cbv zeta.
    destruct (indexBySlug_known sl (loaded photos ("#photo=" ++ sl)) Hyes)
      as (Hv & p & Hp & Hsl & _).
    rewrite (checkHash_photo sl); [|reflexivity].
    assert (Hne : negb (indexBySlug sl (loaded photos ("#photo=" ++ sl)) =? -1) = true).
    { apply negb_true_iff, Z.eqb_neq. destruct Hv. lia. }
    rewrite Hne. split; [reflexivity|]. split; [exact Hv|].
    destruct (open_fields _ _ (proj1 (valid_index_in_range _ _) Hv))
      as (p' & Hp' & Ho & Hi & Hh & _).
    rewrite Hp in Hp'. injection Hp' as <-.
    split; [exact Ho|]. split; [exact Hi|].
    rewrite Hh, Hsl. split; [reflexivity | intros E; exact E].
Qed.

(** X5.  A deep link leads back to the photo it was taken from: when
    the slugs of the catalog are pairwise distinct and the slug of
    photo [i] holds no character the fragment encoding changes (as
    every slug derived from a file name does), loading the page at the
    fragment that viewing photo [i] wrote opens the viewer at [i],
    with that same fragment. *)
Theorem deep_link_round_trip (s : State) (i : Z) :
  NoDup (slugs s) ->
  valid_index i s ->
  (forall p, _photos s !! Z.to_nat i = Some p -> fragment_safe (slugFor p) = true) ->
  isOpen (init (_photos s) (location_hash (open i s))) = true
  /\ _currentIndex (init (_photos s) (location_hash (open i s))) = i
  /\ location_hash (init (_photos s) (location_hash (open i s)))
     = location_hash (open i s).
Proof.
  intros Hnd Hv Hsafe.
  destruct (open_fields i s (proj1 (valid_index_in_range _ _) Hv))
    as (p & Hp & _ & _ & Hh & _).
  rewrite Hh, (url_fragment_photo_safe _ (Hsafe p Hp)). unfold init.
  rewrite (checkHash_photo (slugFor p)); [|reflexivity].
  assert (E : indexBySlug (slugFor p) (loaded (_photos s) ("#photo=" ++ slugFor p)) = i).
  { rewrite (indexBySlug_inverts _ (Z.to_nat i) p); [destruct Hv; lia | exact Hnd | exact Hp]. }
  rewrite E.
  assert (Hne : negb (i =? -1) = true)
    by (apply negb_true_iff, Z.eqb_neq; destruct Hv; lia).
  rewrite Hne.
  destruct (open_fields i (loaded (_photos s) ("#photo=" ++ slugFor p)))
    as (p' & Hp' & Ho & Hi & Hh' & _).
  { apply valid_index_in_range. exact Hv. }
  cbn [loaded _photos] in Hp'. rewrite Hp in Hp'. injection Hp' as <-.
  split; [exact Ho|]. split; [exact Hi|].
  rewrite Hh'. apply url_fragment_photo_safe. exact (Hsafe p Hp).
Qed.

Lemma deep_link_round_trip_witness :
  let cat := [mkPhoto "IMG 1.jpg" None "1.jpg" None None None None None None;
              mkPhoto "IMG 2.jpg" None "2.jpg" None None None None None None;
              mkPhoto "x.jpg" (Some "dusk") "3.jpg" None None None None None None] in
  NoDup (slugs (loaded cat ""))
  /\ valid_index 1 (loaded cat "")
  /\ (forall p, _photos (loaded cat "") !! Z.to_nat 1 = Some p ->
                fragment_safe (slugFor p) = true)
  /\ location_hash (open 1 (loaded cat "")) = "#photo=img-2"
  /\ _currentIndex (init cat (location_hash (open 1 (loaded cat "")))) = 1.
Proof.
  cbv zeta.
  assert (Hnd : NoDup (slugs (loaded
            [mkPhoto "IMG 1.jpg" None "1.jpg" None None None None None None;
             mkPhoto "IMG 2.jpg" None "2.jpg" None None None None None None;
             mkPhoto "x.jpg" (Some "dusk") "3.jpg" None None None None None None] ""))).
  { unfold slugs. cbn [loaded _photos map].
    repeat (constructor;
            [intros Hin; apply list_elem_of_In in Hin; vm_compute in Hin;
             intuition congruence|]).
    constructor. }
  assert (Hv : valid_index 1 (loaded
            [mkPhoto "IMG 1.jpg" None "1.jpg" None None None None None None;
             mkPhoto "IMG 2.jpg" None "2.jpg" None None None None None None;
             mkPhoto "x.jpg" (Some "dusk") "3.jpg" None None None None None None] ""))
    by (unfold valid_index, count; cbn; lia).
  assert (Hs : forall p, _photos (loaded
            [mkPhoto "IMG 1.jpg" None "1.jpg" None None None None None None;
             mkPhoto "IMG 2.jpg" None "2.jpg" None None None None None None;
             mkPhoto "x.jpg" (Some "dusk") "3.jpg" None None None None None None] "")
            !! Z.to_nat 1 = Some p -> fragment_safe (slugFor p) = true).
  { intros p Hp. cbn in Hp. injection Hp as <-. vm_compute. reflexivity. }
  split; [exact Hnd|]. split; [exact Hv|]. split; [exact Hs|].
  split; [vm_compute; reflexivity|].
  exact (proj1 (proj2 (deep_link_round_trip _ 1 Hnd Hv Hs))).
Defined.

(** *** What [show] writes and requests *)

Lemma preload_exact (j : Z) (s : State) :
  preload j s
  = mkState (_photos s) (_currentIndex s) (_suppressHashChange s)
      (location_hash s) (modal_shown s) (frames s) (view s)
      (_touchStartX s) (_touchStartY s) (_touchMoved s)
      (preload_request j s ++ trace s)%list.
Proof.
  unfold preload, preload_request.
  destruct (out_of_range j s); [destruct s; reflexivity|].
  destruct (_photos s !! Z.to_nat j); [reflexivity | destruct s; reflexivity].
Qed.

Lemma show_exact (i : Z) (s : State) :
  out_of_range i s = false ->
  exists p,
    _photos s !! Z.to_nat i = Some p
    /\ show i s
       = mkState (_photos s) i true (url_fragment ("#photo=" ++ slugFor p))
           (modal_shown s) (S (frames s))
           (view_of i p (length (_photos s)))
           (_touchStartX s) (_touchStartY s) (_touchMoved s)
           (preload_request (i + 1) s ++ preload_request (i - 1) s
            ++ [RequestFrame; ReplaceState ("#photo=" ++ slugFor p)%string; Render i]
            ++ trace s)%list.
Proof.
  intros H. destruct (in_range_lookup i s H) as [p Hp].
  exists p. split; [exact Hp|].
  unfold show. rewrite H, Hp. cbv zeta.
  rewrite !preload_exact.
  unfold preload_request, out_of_range, view_of.
  destruct s. unfold_writes. reflexivity.
Qed.

(** X6.  A call of [show] with an index in range displays that photo,
    hides the "previous" control exactly at index 0 and the "next"
    control exactly at the last index, writes the photo's fragment, and
    asks for the neighbours that exist to be prefetched (the one after,
    then the one before) and for nothing else; with an index out of
    range it does nothing at all. *)
Theorem show_writes_and_requests (i : Z) (s : State) :
  (valid_index i s ->
   exists p,
     _photos s !! Z.to_nat i = Some p
     /\ view (show i s) = view_of i p (length (_photos s))
     /\ (lightboxPrev_visible (view (show i s)) = false <-> i = 0)
     /\ (lightboxNext_visible (view (show i s)) = false <-> i = count s - 1)
     /\ issued s (show i s)
        = (preload_request (i + 1) s ++ preload_request (i - 1) s
           ++ [RequestFrame; ReplaceState ("#photo=" ++ slugFor p)%string; Render i])%list
     /\ (i = 0 -> preload_request (i - 1) s = [])
     /\ (i = count s - 1 -> preload_request (i + 1) s = []))
  /\ (~ valid_index i s -> show i s = s).
Proof.
  split.
  - intros Hv. pose proof (proj1 (valid_index_in_range i s) Hv) as Hr.
    destruct (show_exact i s Hr) as (p & Hp & E).
    exists p. split; [exact Hp|]. rewrite E.
    cbn [view]. split; [reflexivity|].
    unfold view_of, count in *. cbn [lightboxPrev_visible lightboxNext_visible].
    destruct Hv as [H0 H1]. unfold count in H1.
    split; [rewrite Z.ltb_ge; lia|].
    split; [rewrite Z.ltb_ge; lia|].
    split.
    + apply issued_app. cbn [trace]. rewrite <- !app_assoc. reflexivity.
    + split; intros ->; unfold preload_request, out_of_range.
      * reflexivity.
      * replace (Z.of_nat (length (_photos s)) - 1 + 1)
          with (Z.of_nat (length (_photos s))) by lia.
        rewrite Z.leb_refl, orb_true_r. reflexivity.
  - intros Hn. apply show_out_of_range.
    destruct (out_of_range i s) eqn:E; [reflexivity|].
    apply valid_index_in_range in E. contradiction.
Qed.

End DeepLinkFacts.

(* ===================================================================== *)
(** ** Invariants of a session and how the listeners compose *)
(* ===================================================================== *)

Section SessionFacts.
Import JsString UrlFragment LightboxModule ViewerVocabulary.

(** A property kept by the writers is kept by every listener. *)
Lemma step_preserves (Q : State -> Prop) :
  (forall i s, Q s -> Q (show i s)) ->
  (forall s, Q s -> Q (modal_show s)) ->
  (forall s, Q s -> Q (modal_hide s)) ->
  (forall h s, Q s -> Q (set_hash h s)) ->
  (forall s, Q s -> Q (clearHash s)) ->
  (forall x y m s, Q s -> Q (set_touch x y m s)) ->
  (forall s, Q s -> Q (animation_frame s)) ->
  forall e s, Q s -> Q (step e s).
Proof.
  intros Hshow Hms Hmh Hsh Hch Hst Haf e s H.
  destruct e; cbn [step].
  - apply Hms, Hshow, H.
  - apply Hshow, H.
  - apply Hshow, H.
  - unfold keydown. destruct (negb (modal_shown s)); [exact H|].
    destruct (String.eqb key "ArrowLeft"), (String.eqb key "ArrowRight");
      repeat apply Hshow; exact H.
  - apply Hst, H.
  - apply Hst, H.
  - rewrite touchend_is_intent. unfold navigate_intent.
    destruct (swipe_intent _ _ _) as [[|]|]; [apply Hshow, H | apply Hshow, H | exact H].
  - unfold hashchange.
    repeat match goal with
           | |- context [if ?b then _ else _] => destruct b
           end;
      first [ apply Hsh, H | apply Hshow, Hsh, H
            | apply Hms, Hshow, Hsh, H | apply Hmh, Hsh, H ].
  - apply Haf, H.
  - destruct (modal_shown s); [apply Hmh, H | exact H].
  - apply Hch, H.
Qed.

Lemma reachable_preserves (photos : list Photo) (Q : State -> Prop) :
  (forall i s, Q s -> Q (show i s)) ->
  (forall s, Q s -> Q (modal_show s)) ->
  (forall s, Q s -> Q (modal_hide s)) ->
  (forall h s, Q s -> Q (set_hash h s)) ->
  (forall s, Q s -> Q (clearHash s)) ->
  (forall x y m s, Q s -> Q (set_touch x y m s)) ->
  (forall s, Q s -> Q (animation_frame s)) ->
  (forall f, Q (loaded photos f)) ->
  forall s, reachable photos s -> Q s.
Proof.
  intros Hshow Hms Hmh Hsh Hch Hst Haf H0 s Hr.
  induction Hr as [f | e s Hr IH].
  - unfold init, checkHash. cbv zeta.
    repeat match goal with
           | |- context [if ?b then _ else _] => destruct b
           end;
      first [ apply H0 | apply Hms, Hshow, H0 ].
  - apply step_preserves; assumption.
Qed.

Lemma show_displays_current (i : Z) (s : State) :
  displays_current s -> displays_current (show i s).
Proof.
  intros H. destruct (out_of_range i s) eqn:E.
  - rewrite (show_out_of_range i s E). exact H.
  - pose proof (proj2 (valid_index_in_range i s) E) as [H0 _].
    destruct (show_exact i s E) as (p & Hp & ->).
    right. exists p. cbn [_photos _currentIndex view].
    split; [exact Hp|]. split; [exact H0 | reflexivity].
Qed.

(** X7.  Through a whole session the catalog stays the one handed to
    [init], the current index never becomes negative and, on a catalog
    that is not empty, always is a valid index; and the overlay either
    was never written (index still 0) or shows exactly the photo at the
    current index. *)
Theorem session_shows_current_photo (photos : list Photo) (s : State) :
  reachable photos s ->
  _photos s = photos
  /\ displays_current s
  /\ 0 <= _currentIndex s
  /\ (photos <> [] -> valid_index (_currentIndex s) s).
Proof.
  intros Hr.
  assert (H : _photos s = photos /\ displays_current s).
  { revert s Hr. apply reachable_preserves.
    - intros i s [Hp Hd]. split; [|apply show_displays_current; exact Hd].
      destruct (show_frame i s) as (E & _). rewrite E. exact Hp.
    - intros s H. exact H.
    - intros s H. exact H.
    - intros h s H. exact H.
    - intros s H. exact H.
    - intros x y m s H. exact H.
    - intros s H. unfold animation_frame. destruct (frames s); exact H.
    - intros f. split; [reflexivity|]. left. split; reflexivity. }
  destruct H as [Hp Hd]. split; [exact Hp|]. split; [exact Hd|].
  destruct Hd as [[_ E] | (p & Hl & H0 & _)].
  - rewrite E. split; [lia|]. intros Hne. unfold valid_index, count.
    rewrite Hp. destruct photos; [contradiction | cbn; lia].
  - split; [exact H0|]. intros _. unfold valid_index, count.
    apply lookup_lt_Some in Hl. lia.
Qed.

Lemma session_shows_current_photo_witness :
  let cat := [mkPhoto "a.jpg" None "a.jpg" (Some "Dawn") None None None None None;
              mkPhoto "b.jpg" None "b.jpg" None None None None None None] in
  let s := step ClickNext (step (CallOpen 0) (init cat "")) in
  reachable cat s
  /\ _currentIndex s = 1
  /\ displays_current s
  /\ lightboxPhoto_src (view s) = "photos/web/b.jpg".
Proof.
  cbv zeta.
  assert (Hr : reachable
    [mkPhoto "a.jpg" None "a.jpg" (Some "Dawn") None None None None None;
     mkPhoto "b.jpg" None "b.jpg" None None None None None None]
    (step ClickNext (step (CallOpen 0) (init
       [mkPhoto "a.jpg" None "a.jpg" (Some "Dawn") None None None None None;
        mkPhoto "b.jpg" None "b.jpg" None None None None None None] ""))))
    by (apply reach_step, reach_step, reach_init).
  split; [exact Hr|]. split; [reflexivity|].
  split; [exact (proj1 (proj2 (session_shows_current_photo _ _ Hr)))|].
  reflexivity.
Defined.

Lemma show_flag_has_callback (i : Z) (s : State) :
  flag_has_callback s -> flag_has_callback (show i s).
Proof.
  intros H. destruct (out_of_range i s) eqn:E.
  - rewrite (show_out_of_range i s E). exact H.
  - destruct (show_exact i s E) as (p & _ & ->).
    unfold flag_has_callback. cbn [frames]. lia.
Qed.

(** X8.  The suppression flag is never left set for good: in every
    state of a session a set flag has a queued animation-frame
    callback, so the next animation frame leaves the flag cleared and
    the queue empty, and it changes nothing else of what the viewer
    shows. *)
Theorem session_flag_is_cleared (photos : list Photo) (s : State) :
  reachable photos s ->
  flag_has_callback s
  /\ _suppressHashChange (step AnimationFrame s) = false
  /\ frames (step AnimationFrame s) = 0%nat
  /\ _currentIndex (step AnimationFrame s) = _currentIndex s
  /\ location_hash (step AnimationFrame s) = location_hash s
  /\ isOpen (step AnimationFrame s) = isOpen s
  /\ view (step AnimationFrame s) = view s
  /\ trace (step AnimationFrame s) = trace s.
Proof.
  intros Hr.
  assert (H : flag_has_callback s).
  { revert s Hr. apply reachable_preserves.
    - apply show_flag_has_callback.
    - intros s H. exact H.
    - intros s H. exact H.
    - intros h s H. exact H.
    - intros s _. unfold flag_has_callback, clearHash. unfold_writes. lia.
    - intros x y m s H. exact H.
    - intros s H. unfold animation_frame.
      destruct (frames s) eqn:E; [exact H|].
      unfold flag_has_callback. cbn. discriminate.
    - intros f. unfold flag_has_callback. cbn. discriminate. }
  split; [exact H|]. cbn [step]. unfold animation_frame, isOpen.
  unfold flag_has_callback in H.
  destruct (frames s) eqn:E; [|repeat split].
  repeat split; [|exact E].
  destruct (_suppressHashChange s); [|reflexivity].
  specialize (H eq_refl). lia.
Qed.

Lemma session_flag_is_cleared_witness :
  let cat := [mkPhoto "a.jpg" None "a.jpg" None None None None None None] in
  let s := run [CallOpen 0; ModalDismiss; ModalHidden] (init cat "") in
  reachable cat s
  /\ _suppressHashChange s = true
  /\ _suppressHashChange (step AnimationFrame s) = false.
Proof.
  cbv zeta.
  assert (Hr : reachable
    [mkPhoto "a.jpg" None "a.jpg" None None None None None None]
    (run [CallOpen 0; ModalDismiss; ModalHidden]
       (init [mkPhoto "a.jpg" None "a.jpg" None None None None None None] "")))
    by (apply reach_step, reach_step, reach_step, reach_init).
  split; [exact Hr|]. split; [reflexivity|].
  exact (proj1 (proj2 (session_flag_is_cleared _ _ Hr))).
Defined.

(** *** The window between a fragment write and the next frame *)

Lemma out_of_range_show (j i : Z) (s : State) :
  out_of_range j (show i s) = out_of_range j s.
Proof.
  unfold out_of_range. destruct (show_frame i s) as (E & _).
  rewrite E. reflexivity.
Qed.

Lemma indexBySlug_same_photos (sl : string) (s s' : State) :
  _photos s' = _photos s -> indexBySlug sl s' = indexBySlug sl s.
Proof. unfold indexBySlug. intros ->. reflexivity. Qed.

Lemma navigate_or_open_index (idx : Z) (s : State) :
  out_of_range idx s = false ->
  _currentIndex (if modal_shown s then show idx s else open idx s) = idx.
Proof.
  intros H. destruct (modal_shown s).
  - rewrite show_index, H. reflexivity.
  - rewrite open_unfold. cbn [_currentIndex]. rewrite show_index, H. reflexivity.
Qed.

(** X9.  After a navigation has written the fragment, every change
    notification that arrives before the next animation frame is
    dropped, also one the browser raises for another, known photo: only
    the fragment moves, the viewer stays where it is.  Once the frame
    has run, the same notification takes the viewer to that photo. *)
Theorem suppression_window_drops_changes (s : State) (i : Z) (sl : string) :
  valid_index i s ->
  (exists p, In p (_photos s) /\ slugFor p = sl) ->
  (forall h, step (HashChange h) (show i s) = set_hash h (show i s))
  /\ _currentIndex (step (HashChange ("#photo=" ++ sl)) (show i s)) = i
  /\ _currentIndex
       (run [AnimationFrame; HashChange ("#photo=" ++ sl)] (show i s))
     = indexBySlug sl s.
Proof.
  intros Hv Hknown.
  pose proof (proj1 (valid_index_in_range i s) Hv) as Hr.
  destruct (show_exact i s Hr) as (p & Hp & E).
  assert (Hdrop : forall h, step (HashChange h) (show i s) = set_hash h (show i s)).
  { intros h. cbn [step]. apply hashchange_suppressed. rewrite E. reflexivity. }
  split; [exact Hdrop|]. split.
  - rewrite Hdrop. cbn [set_hash _currentIndex]. rewrite show_index, Hr. reflexivity.
  - unfold run. cbn [fold_left].
    assert (Hflag : _suppressHashChange (step AnimationFrame (show i s)) = false)
      by (rewrite E; reflexivity).
    assert (Hph : _photos (step AnimationFrame (show i s)) = _photos s)
      by (rewrite E; reflexivity).
    rewrite (hashchange_photo sl _ Hflag). cbv zeta.
    rewrite (indexBySlug_same_photos sl s _ Hph).
    destruct (indexBySlug_known sl s Hknown) as (Hvi & _).
    assert (Hne : negb (indexBySlug sl s =? -1) = true)
      by (apply negb_true_iff, Z.eqb_neq; destruct Hvi; lia).
    rewrite Hne.
    change (modal_shown (step AnimationFrame (show i s)))
      with (modal_shown (set_hash ("#photo=" ++ sl) (step AnimationFrame (show i s)))).
    apply navigate_or_open_index.
    unfold out_of_range. cbn [set_hash _photos]. rewrite Hph.
    apply valid_index_in_range. exact Hvi.
Qed.

Lemma suppression_window_drops_changes_witness :
  let cat := [mkPhoto "a.jpg" None "a.jpg" None None None None None None;
              mkPhoto "b.jpg" None "b.jpg" None None None None None None] in
  let s := open 0 (loaded cat "") in
  valid_index 0 s
  /\ (exists p, In p (_photos s) /\ slugFor p = "b")
  /\ _currentIndex (step (HashChange "#photo=b") (show 0 s)) = 0
  /\ _currentIndex (run [AnimationFrame; HashChange "#photo=b"] (show 0 s)) = 1.
Proof.
  cbv zeta.
  assert (Hv : valid_index 0 (open 0 (loaded
            [mkPhoto "a.jpg" None "a.jpg" None None None None None None;
             mkPhoto "b.jpg" None "b.jpg" None None None None None None] "")))
    by (unfold valid_index, count; vm_compute; split; congruence).
  assert (Hk : exists p, In p (_photos (open 0 (loaded
            [mkPhoto "a.jpg" None "a.jpg" None None None None None None;
             mkPhoto "b.jpg" None "b.jpg" None None None None None None] "")))
            /\ slugFor p = "b").
  { eexists. split; [right; left; reflexivity | vm_compute; reflexivity]. }
  split; [exact Hv|]. split; [exact Hk|].
  destruct (suppression_window_drops_changes _ 0 "b" Hv Hk) as (_ & H1 & H2).
  split; [exact H1|]. refine (eq_trans H2 _). vm_compute. reflexivity.
Defined.

(** *** Previous and next *)

(** X10.  From a valid current index, "previous" at index 0 and "next"
    at the last index change nothing at all; anywhere else they move
    the index by one, and "previous" undoes "next". *)
Theorem prev_next_steps (s : State) :
  valid_index (_currentIndex s) s ->
  (_currentIndex s = 0 -> step ClickPrev s = s)
  /\ (_currentIndex s = count s - 1 -> step ClickNext s = s)
  /\ (0 < _currentIndex s ->
      _currentIndex (step ClickPrev s) = _currentIndex s - 1)
  /\ (_currentIndex s < count s - 1 ->
      _currentIndex (step ClickNext s) = _currentIndex s + 1
      /\ _currentIndex (step ClickPrev (step ClickNext s)) = _currentIndex s).
Proof.
  intros [H0 H1]. cbn [step]. unfold click_prev, click_next, count in *.
  split; [|split; [|split]].
  - intros E. apply show_out_of_range. unfold out_of_range.
    rewrite E. reflexivity.
  - intros E. apply show_out_of_range. unfold out_of_range.
    replace (Z.of_nat (length (_photos s)) <=? _currentIndex s + 1) with true
      by (symmetry; apply Z.leb_le; lia).
    apply orb_true_r.
  - intros Hpos. rewrite show_index.
    replace (out_of_range (_currentIndex s - 1) s) with false; [reflexivity|].
    symmetry. apply valid_index_in_range. unfold valid_index, count. lia.
  - intros Hlt.
    assert (Hn : out_of_range (_currentIndex s + 1) s = false)
      by (apply valid_index_in_range; unfold valid_index, count; lia).
    assert (E : _currentIndex (show (_currentIndex s + 1) s) = _currentIndex s + 1)
      by (rewrite show_index, Hn; reflexivity).
    split; [exact E|].
    rewrite show_index, out_of_range_show, E.
    replace (_currentIndex s + 1 - 1) with (_currentIndex s) by lia.
    replace (out_of_range (_currentIndex s) s) with false; [reflexivity|].
    symmetry. apply valid_index_in_range. unfold valid_index, count. lia.
Qed.

Lemma prev_next_steps_witness :
  let cat := [mkPhoto "a.jpg" None "a.jpg" None None None None None None;
              mkPhoto "b.jpg" None "b.jpg" None None None None None None] in
  let s := open 0 (loaded cat "") in
  valid_index (_currentIndex s) s
  /\ step ClickPrev s = s
  /\ _currentIndex (step ClickNext s) = 1
  /\ step ClickNext (step ClickNext s) = step ClickNext s.
Proof.
  cbv zeta.
  assert (Hv : valid_index
            (_currentIndex (open 0 (loaded
               [mkPhoto "a.jpg" None "a.jpg" None None None None None None;
                mkPhoto "b.jpg" None "b.jpg" None None None None None None] "")))
            (open 0 (loaded
               [mkPhoto "a.jpg" None "a.jpg" None None None None None None;
                mkPhoto "b.jpg" None "b.jpg" None None None None None None] "")))
    by (unfold valid_index, count; vm_compute; split; congruence).
  split; [exact Hv|].
  destruct (prev_next_steps _ Hv) as (Hp & _ & _ & Hn).
  split; [exact (Hp eq_refl)|].
  split; [exact (proj1 (Hn ltac:(vm_compute; reflexivity)))|].
  assert (Hv' : valid_index
            (_currentIndex (step ClickNext (open 0 (loaded
               [mkPhoto "a.jpg" None "a.jpg" None None None None None None;
                mkPhoto "b.jpg" None "b.jpg" None None None None None None] ""))))
            (step ClickNext (open 0 (loaded
               [mkPhoto "a.jpg" None "a.jpg" None None None None None None;
                mkPhoto "b.jpg" None "b.jpg" None None None None None None] ""))))
    by (unfold valid_index, count; vm_compute; split; congruence).
  exact (proj1 (proj2 (prev_next_steps _ Hv')) eq_refl).
Defined.

(** *** Keys, clicks and swipes *)

Lemma show_set_touch (i x y : Z) (m : bool) (s : State) :
  show i (set_touch x y m s) = set_touch x y m (show i s).
Proof.
  destruct (out_of_range i s) eqn:E.
  - rewrite (show_out_of_range i s E).
    apply show_out_of_range. exact E.
  - destruct (show_exact i s E) as (p & Hp & ->).
    destruct (show_exact i (set_touch x y m s) E) as (p' & Hp' & ->).
    cbn [set_touch _photos] in Hp'. rewrite Hp in Hp'. injection Hp' as <-.
    reflexivity.
Qed.

(** X11.  On an open viewer the right-arrow key does what a click on
    "next" does and the left-arrow key what a click on "previous" does;
    any other key changes nothing.  A swipe to the left (more than 50
    units, and more horizontal than vertical) does what the click on
    "next" does, a swipe to the right what the click on "previous"
    does, apart from the touch record the gesture leaves. *)
Theorem input_channels_agree (s : State) (key : string) (x0 y0 x y : Z) :
  isOpen s = true ->
  step (KeyDown "ArrowRight") s = step ClickNext s
  /\ step (KeyDown "ArrowLeft") s = step ClickPrev s
  /\ (key <> "ArrowLeft" -> key <> "ArrowRight" -> step (KeyDown key) s = s)
  /\ (50 < Z.abs (x - x0) -> Z.abs (y - y0) < Z.abs (x - x0) -> x < x0 ->
      run [TouchStart x0 y0; TouchMove; TouchEnd x y] s
      = set_touch x0 y0 true (step ClickNext s))
  /\ (50 < Z.abs (x - x0) -> Z.abs (y - y0) < Z.abs (x - x0) -> x0 < x ->
      run [TouchStart x0 y0; TouchMove; TouchEnd x y] s
      = set_touch x0 y0 true (step ClickPrev s)).
Proof.
  unfold isOpen. intros Ho.
  split; [|split; [|split; [|split]]].
  - cbn [step]. unfold keydown. rewrite Ho. reflexivity.
  - cbn [step]. unfold keydown. rewrite Ho. reflexivity.
  - intros Hl Hr. cbn [step]. unfold keydown. rewrite Ho. cbn [negb].
    apply String.eqb_neq in Hl, Hr. rewrite Hl, Hr. reflexivity.
  - intros H1 H2 H3. unfold run. cbn [fold_left step].
    rewrite touchend_is_intent.
    change (_touchMoved (touchmove (touchstart x0 y0 s))) with true.
    change (_touchStartX (touchmove (touchstart x0 y0 s))) with x0.
    change (_touchStartY (touchmove (touchstart x0 y0 s))) with y0.
    rewrite (proj2 (swipe_intent_next (x - x0) (y - y0))) by lia.
    cbn [navigate_intent].
    change (touchmove (touchstart x0 y0 s)) with (set_touch x0 y0 true s).
    change (_currentIndex (set_touch x0 y0 true s)) with (_currentIndex s).
    unfold click_next. apply show_set_touch.
  - intros H1 H2 H3. unfold run. cbn [fold_left step].
    rewrite touchend_is_intent.
    change (_touchMoved (touchmove (touchstart x0 y0 s))) with true.
    change (_touchStartX (touchmove (touchstart x0 y0 s))) with x0.
    change (_touchStartY (touchmove (touchstart x0 y0 s))) with y0.
    rewrite (proj2 (swipe_intent_prev (x - x0) (y - y0))) by lia.
    cbn [navigate_intent].
    change (touchmove (touchstart x0 y0 s)) with (set_touch x0 y0 true s).
    change (_currentIndex (set_touch x0 y0 true s)) with (_currentIndex s).
    unfold click_prev. apply show_set_touch.
Qed.

Lemma input_channels_agree_witness :
  let cat := [mkPhoto "a.jpg" None "a.jpg" None None None None None None;
              mkPhoto "b.jpg" None "b.jpg" None None None None None None] in
  let s := open 0 (loaded cat "") in
  isOpen s = true
  /\ step (KeyDown "ArrowRight") s = step ClickNext s
  /\ step (KeyDown "Escape") s = s
  /\ _currentIndex (run [TouchStart 200 300; TouchMove; TouchEnd 120 310] s) = 1.
Proof.
  cbv zeta.
  destruct (input_channels_agree
    (open 0 (loaded
       [mkPhoto "a.jpg" None "a.jpg" None None None None None None;
        mkPhoto "b.jpg" None "b.jpg" None None None None None None] ""))
    "Escape" 200 300 120 310 eq_refl) as (H1 & _ & H3 & H4 & _).
  split; [reflexivity|]. split; [exact H1|].
  split; [apply H3; discriminate|].
  rewrite H4; [vm_compute; reflexivity | vm_compute; reflexivity
              | vm_compute; reflexivity | vm_compute; reflexivity].
Defined.

(** *** Closing *)

Lemma run_app (es es' : list Event) (s : State) :
  run (es ++ es') s = run es' (run es s).
Proof. unfold run. apply fold_left_app. Qed.

(** X12.  Whatever happened before, once the widget is dismissed and
    has announced that it is hidden the viewer is closed and the
    fragment is empty; the current index and the overlay's content are
    kept, and until the next animation frame change notifications are
    dropped. *)
Theorem closing_empties_fragment (es : list Event) (s : State) (h : string) :
  isOpen (run (es ++ [ModalDismiss; ModalHidden]) s) = false
  /\ location_hash (run (es ++ [ModalDismiss; ModalHidden]) s) = ""
  /\ _currentIndex (run (es ++ [ModalDismiss; ModalHidden]) s)
     = _currentIndex (run es s)
  /\ view (run (es ++ [ModalDismiss; ModalHidden]) s) = view (run es s)
  /\ step (HashChange h) (run (es ++ [ModalDismiss; ModalHidden]) s)
     = set_hash h (run (es ++ [ModalDismiss; ModalHidden]) s).
Proof.
  rewrite run_app. generalize (run es s). clear s es. intros s.
  unfold run, isOpen. cbn [fold_left step].
  destruct (modal_shown s) eqn:Hm; repeat split; try exact Hm.
Qed.

(** *** Sharing *)

(** X13.  [share] ends normally exactly when the clipboard interface
    exists and either its promise is fulfilled or, after a rejection,
    [execCommand] returns; the toast is then shown exactly when both
    toast elements exist, with the text "Link copied to clipboard" and
    a delay of 2000 ms, whether or not [execCommand] reported a copy.
    What is written is always the page address with its fragment, and
    the off-screen text field is removed again exactly when
    [execCommand] returns. *)
Theorem share_outcomes (h : Host) (s : State) :
  (fst (share h s) = Completed
   <-> clipboard h = ClipboardResolves
       \/ (clipboard h = ClipboardRejects /\ execCommand_copy h <> ExecThrows))
  /\ (toast_shown (share h s) = true
      <-> fst (share h s) = Completed
          /\ shareToast h = true /\ shareToastBody h = true)
  /\ (toast_shown (share h s) = true ->
      In (ToastBodyText "Link copied to clipboard") (snd (share h s))
      /\ In (ToastShow 2000) (snd (share h s)))
  /\ (forall u, In (WriteText u) (snd (share h s))
                \/ In (AppendTextarea u) (snd (share h s)) ->
                u = (page_url h ++ location_hash s)%string)
  /\ (In (AppendTextarea (page_url h ++ location_hash s)%string) (snd (share h s))
      -> (In RemoveTextarea (snd (share h s))
          <-> execCommand_copy h <> ExecThrows))
  /\ (forall copied copied',
         share (mkHost (page_url h) ClipboardRejects (ExecReturns copied)
                  (shareToast h) (shareToastBody h)) s
         = share (mkHost (page_url h) ClipboardRejects (ExecReturns copied')
                    (shareToast h) (shareToastBody h)) s).
Proof.
  unfold share, toast_shown, showToast.
  destruct h as [url cl ex t b]. cbn [page_url clipboard execCommand_copy shareToast shareToastBody].
  repeat split;
    destruct cl; try destruct ex; destruct t, b; cbn; intros; cbn in *;
    intuition congruence.
Qed.

End SessionFacts.

(* ===================================================================== *)
(** ** Lazy loading: what a batch touches, idempotence, observing *)
(* ===================================================================== *)

Section LazyBatchFacts.
Import JsString LazyLoad LazyVocabulary.

Lemma onIntersect_cons (e : Entry) (es : list Entry) (p : Page) :
  onIntersect (e :: es) p = onIntersect es (on_entry e p).
Proof. reflexivity. Qed.

Lemma onIntersect_observed (es : list Entry) (p : Page) :
  observed (onIntersect es p) ⊆ observed p.
Proof.
  revert p. induction es as [|e es IH]; intros p; [done|].
  rewrite onIntersect_cons. etrans; [apply IH | apply on_entry_observed].
Qed.

Lemma onIntersect_skips (es : list Entry) (p : Page) (k : nat) (img : Img) :
  images p !! k = Some img ->
  truthy (data_src img) = false ->
  images (onIntersect es p) !! k = Some img.
Proof.
  revert p. induction es as [|e es IH]; intros p Hl Ht; [exact Hl|].
  rewrite onIntersect_cons. apply IH; [|exact Ht].
  apply on_entry_skips; assumption.
Qed.

Lemma on_entry_absent (e : Entry) (p : Page) (k : nat) :
  images p !! k = None -> images (on_entry e p) !! k = None.
Proof.
  intros Hl. destruct (on_entry_images e p k) as [-> | (_ & _ & img & Hi & _)].
  - exact Hl.
  - rewrite Hl in Hi. discriminate Hi.
Qed.

Lemma onIntersect_absent (es : list Entry) (p : Page) (k : nat) :
  images p !! k = None -> images (onIntersect es p) !! k = None.
Proof.
  revert p. induction es as [|e es IH]; intros p Hl; [exact Hl|].
  rewrite onIntersect_cons. apply IH, on_entry_absent, Hl.
Qed.

Lemma on_entry_loaded_from (p : Page) (k : nat) (img : Img) :
  images p !! k = Some img ->
  truthy (data_src img) = true ->
  exists img',
    images (on_entry (mkEntry k true) p) !! k = Some img'
    /\ loaded_from img img'
    /\ k ∉ observed (on_entry (mkEntry k true) p).
Proof.
  intros Hl Ht. rewrite (on_entry_loads p k img Hl Ht).
  eexists. split; [cbn [images]; apply lookup_insert_eq|].
  split; [repeat split|].
  cbn [observed]. intros Hin. apply elem_of_difference in Hin.
  destruct Hin as [_ Hn]. apply Hn, elem_of_singleton. reflexivity.
Qed.

Lemma intersecting_targets_cons (e : Entry) (es : list Entry) (k : nat) :
  In k (intersecting_targets es) -> In k (intersecting_targets (e :: es)).
Proof.
  unfold intersecting_targets.
  destruct (decide (isIntersecting e = true)) as [H|H].
  - rewrite (filter_cons_True _ e es H). intros Hin. right. exact Hin.
  - rewrite (filter_cons_False _ e es H). tauto.
Qed.

Lemma intersecting_targets_head (e : Entry) (es : list Entry) :
  isIntersecting e = true -> In (target e) (intersecting_targets (e :: es)).
Proof.
  intros H. unfold intersecting_targets.
  rewrite (filter_cons_True _ e es H). left. reflexivity.
Qed.

(** Each image is either left as it was or loaded once by the batch. *)
Lemma onIntersect_each (es : list Entry) (p : Page) (k : nat) :
  images (onIntersect es p) !! k = images p !! k
  \/ exists img img',
       images p !! k = Some img
       /\ images (onIntersect es p) !! k = Some img'
       /\ truthy (data_src img) = true
       /\ loaded_from img img'
       /\ In k (intersecting_targets es)
       /\ k ∉ observed (onIntersect es p).
Proof.
  revert p. induction es as [|e es IH]; intros p; [left; reflexivity|].
  rewrite onIntersect_cons.
  destruct (on_entry_images e p k) as [E | (-> & Hi & img & Hl & Ht)].
  - destruct (IH (on_entry e p)) as [E' | (img & img' & Hl & Hl' & Ht & Hf & Hin & Ho)].
    + left. rewrite E'. exact E.
    + right. exists img, img'. rewrite <- E.
      repeat (split; [assumption|]).
      split; [apply intersecting_targets_cons; exact Hin | exact Ho].
  - right. destruct e as [t b]. cbn [target isIntersecting] in *. subst b.
    destruct (on_entry_loaded_from p t img Hl Ht) as (img' & Hl' & Hf & Ho).
    exists img, img'. split; [exact Hl|].
    split.
    { apply onIntersect_skips; [exact Hl'|].
      destruct Hf as (_ & Hd & _). rewrite Hd. reflexivity. }
    split; [exact Ht|]. split; [exact Hf|].
    split; [apply (intersecting_targets_head (mkEntry t true)); reflexivity|].
    intros Hin. apply Ho. exact (onIntersect_observed es _ t Hin).
Qed.

(** X14.  A batch of entries touches only the images it names as
    intersecting: every image of the page is afterwards either exactly
    as before, or was loaded once (source taken from its non-empty
    [data-src], one load listener added) and is no longer observed.  No
    image appears or disappears, nothing becomes observed, and an image
    the batch does not name keeps its observation. *)
Theorem onIntersect_touches_only_targets (es : list Entry) (p : Page) (k : nat) :
  (images (onIntersect es p) !! k = images p !! k
   \/ exists img img',
        images p !! k = Some img
        /\ images (onIntersect es p) !! k = Some img'
        /\ truthy (data_src img) = true
        /\ loaded_from img img'
        /\ In k (intersecting_targets es)
        /\ k ∉ observed (onIntersect es p))
  /\ (images (onIntersect es p) !! k = None <-> images p !! k = None)
  /\ observed (onIntersect es p) ⊆ observed p
  /\ (~ In k (intersecting_targets es) ->
      images (onIntersect es p) !! k = images p !! k
      /\ (k ∈ observed (onIntersect es p) <-> k ∈ observed p)).
Proof.
  split; [apply onIntersect_each|].
  split.
  { split.
    - intros Hn. destruct (onIntersect_each es p k) as [E | (img & img' & _ & Hl' & _)].
      + rewrite <- E. exact Hn.
      + rewrite Hn in Hl'. discriminate Hl'.
    - apply onIntersect_absent. }
  split; [apply onIntersect_observed|].
  intros Hnot. split.
  - destruct (onIntersect_each es p k) as [E | (img & img' & _ & _ & _ & _ & Hin & _)];
      [exact E | contradiction].
  - split; [apply onIntersect_observed|].
    revert p. induction es as [|e es IH]; intros p Hin; [exact Hin|].
    rewrite onIntersect_cons. apply IH.
    + intros H. apply Hnot. apply intersecting_targets_cons. exact H.
    + unfold on_entry. destruct (isIntersecting e) eqn:Hi; cbn [negb]; [|exact Hin].
      destruct (images p !! target e) as [img|]; [|exact Hin].
      destruct (truthy (data_src img)); cbn [negb observed]; [|exact Hin].
      apply elem_of_difference. split; [exact Hin|].
      intros Hk. apply elem_of_singleton in Hk. subst k.
      apply Hnot. apply intersecting_targets_head. exact Hi.
Qed.

(** *** Delivering a batch twice *)

Lemma onIntersect_nothing_to_load (es : list Entry) (p : Page) :
  (forall e img, In e es -> isIntersecting e = true ->
                 images p !! target e = Some img ->
                 truthy (data_src img) = false) ->
  onIntersect es p = p.
Proof.
  induction es as [|e es IH]; intros H; [reflexivity|].
  rewrite onIntersect_cons.
  assert (E : on_entry e p = p).
  { unfold on_entry. destruct (isIntersecting e) eqn:Hi; cbn [negb]; [|reflexivity].
    destruct (images p !! target e) as [img|] eqn:Hl; [|reflexivity].
    rewrite (H e img (or_introl eq_refl) Hi Hl). reflexivity. }
  rewrite E. apply IH. intros e' img Hin. apply H. right. exact Hin.
Qed.

Lemma onIntersect_leaves_nothing (es : list Entry) (p : Page) (e : Entry) (img : Img) :
  In e es -> isIntersecting e = true ->
  images (onIntersect es p) !! target e = Some img ->
  truthy (data_src img) = false.
Proof.
  revert p. induction es as [|e0 es IH]; intros p Hin Hi Hl; [destruct Hin|].
  rewrite onIntersect_cons in Hl.
  destruct Hin as [-> | Hin]; [|exact (IH _ Hin Hi Hl)].
  destruct (images p !! target e) as [i0|] eqn:Hp.
  - destruct (truthy (data_src i0)) eqn:Ht.
    + destruct e as [t b]. cbn [target isIntersecting] in *. subst b.
      destruct (on_entry_loaded_from p t i0 Hp Ht) as (i1 & Hl1 & (_ & Hd & _) & _).
      rewrite (onIntersect_skips es _ t i1 Hl1) in Hl by (rewrite Hd; reflexivity).
      injection Hl as <-. rewrite Hd. reflexivity.
    + rewrite (onIntersect_skips es _ _ i0 (on_entry_skips e p _ i0 Hp Ht) Ht) in Hl.
      injection Hl as <-. exact Ht.
  - rewrite (onIntersect_absent es _ _ (on_entry_absent e p _ Hp)) in Hl.
    discriminate Hl.
Qed.

(** X15.  Delivering the same batch of entries a second time changes
    nothing: whatever the batch could load it has loaded. *)
Theorem onIntersect_idempotent (es : list Entry) (p : Page) :
  onIntersect es (onIntersect es p) = onIntersect es p.
Proof.
  apply onIntersect_nothing_to_load.
  intros e img Hin Hi Hl. exact (onIntersect_leaves_nothing es p e img Hin Hi Hl).
Qed.

(** *** Observing *)

(** X16.  [observe] watches exactly the images that carry the class
    "lazy" and a [data-src] attribute.  [refresh] keeps every image
    that is observed, adds every image the selector matches (so one
    that appeared since is picked up), leaves the images alone, and is
    idempotent; right after [observe] it changes nothing. *)
Theorem observe_and_refresh (imgs : gmap nat Img) (p : Page) (k : nat) :
  (k ∈ observed (observe imgs)
   <-> exists img, imgs !! k = Some img
                   /\ lazy img = true /\ is_Some (data_src img))
  /\ refresh (observe imgs) = observe imgs
  /\ refresh (refresh p) = refresh p
  /\ images (refresh p) = images p
  /\ observed p ⊆ observed (refresh p)
  /\ (k ∈ observed (refresh p)
      <-> k ∈ observed p
          \/ exists img, images p !! k = Some img
                         /\ lazy img = true /\ is_Some (data_src img)).
Proof.
  assert (Hsel : forall m, k ∈ querySelectorAll m
                 <-> exists img, m !! k = Some img
                                 /\ lazy img = true /\ is_Some (data_src img)).
  { intros m. rewrite querySelectorAll_spec. unfold selected.
    split; intros (img & Hl & Hs); exists img; (split; [exact Hl|]).
    - apply andb_true_iff in Hs. destruct Hs as [H1 H2].
      split; [exact H1 | apply bool_decide_eq_true in H2; exact H2].
    - destruct Hs as [H1 H2]. rewrite H1. cbn [andb].
      apply bool_decide_eq_true. exact H2. }
  split; [apply Hsel|].
  split; [unfold refresh, observe; cbn [images observed]; f_equal; apply union_idemp_L|].
  split.
  { unfold refresh. cbn [images observed]. f_equal.
    rewrite <- (assoc_L (∪)). f_equal. apply union_idemp_L. }
  split; [reflexivity|].
  split; [unfold refresh; cbn [observed]; apply union_subseteq_l|].
  unfold refresh. cbn [observed]. rewrite elem_of_union, Hsel. reflexivity.
Qed.

End LazyBatchFacts.
